(** * goraytracer: a shallow embedding of the geometry kernel, the scene
    model, the shading engine and the band rasterizer, with the properties
    of the specification settled against it.

    The Go program computes on [float64].  The embedding keeps that: the
    scalars of the program are Rocq's primitive binary64 floats, whose
    operations are the IEEE 754 ones Go uses (each operation rounded on
    its own, as on amd64; Go allows itself a fused multiply-add on some
    other architectures), so every definition below evaluates on concrete
    inputs as the Go code does.  The geometry kernel is written once over
    an interface of scalars ([Scalar]) so that the same text can also be
    read in exact real arithmetic, where the geometric facts (a point on a
    sphere, a vector of length one) hold without rounding.

    The integers of the program ([int] indices, rows and columns) are in
    [Z]: they stay between 0 and the sizes of the image, so that no
    operation on them wraps around. *)

From Stdlib Require Import ZArith Lia Floats Reals Lra Psatz Bool String.
From stdpp Require Import base tactics option list.

Set Warnings "-inexact-float".
#[local] Open Scope Z_scope.

(** ** Scalars *)

(** What the program asks of its numbers: the four operations, negation,
    square root, absolute value, the two comparisons, the conversion of an
    integer and the largest finite value (Go's [math.MaxFloat64]). *)
Class Scalar (F : Type) := {
  fadd : F -> F -> F;
  fsub : F -> F -> F;
  fmul : F -> F -> F;
  fdiv : F -> F -> F;
  fopp : F -> F;
  fsqrt : F -> F;
  fabs : F -> F;
  fltb : F -> F -> bool;
  fleb : F -> F -> bool;
  of_int : Z -> F;
  MaxFloat64 : F
}.

Declare Scope F_scope.
Delimit Scope F_scope with sc.
Infix "+" := fadd : F_scope.
Infix "-" := fsub : F_scope.
Infix "*" := fmul : F_scope.
Infix "/" := fdiv : F_scope.
Notation "- x" := (fopp x) : F_scope.
Infix "<?" := fltb : F_scope.
Infix "<=?" := fleb : F_scope.
Notation "x >? y" := (fltb y x) (only parsing) : F_scope.
Notation "x >=? y" := (fleb y x) (only parsing) : F_scope.
Notation "# n" := (of_int n) (at level 1, format "# n") : F_scope.

(** Go's [float64(n)] for an [int]: exact below 2^53, rounded to nearest
    above. *)
Definition float64_of_int (n : Z) : float :=
  if n <? 0 then PrimFloat.opp (PrimFloat.of_uint63 (Uint63.of_Z (- n)))
  else PrimFloat.of_uint63 (Uint63.of_Z n).

(** The program's numbers: IEEE 754 binary64. *)
#[export] Instance float64 : Scalar float := {
  fadd := PrimFloat.add;
  fsub := PrimFloat.sub;
  fmul := PrimFloat.mul;
  fdiv := PrimFloat.div;
  fopp := PrimFloat.opp;
  fsqrt := PrimFloat.sqrt;
  fabs := PrimFloat.abs;
  fltb := PrimFloat.ltb;
  fleb := PrimFloat.leb;
  of_int := float64_of_int;
  MaxFloat64 := 0x1.fffffffffffffp1023%float
}.

(** The same interface in exact arithmetic: the real numbers, with the
    real value of [math.MaxFloat64], (2^53 - 1) * 2^971. *)
#[export] Instance exact : Scalar R := {
  fadd := Rplus;
  fsub := Rminus;
  fmul := Rmult;
  fdiv := Rdiv;
  fopp := Ropp;
  fsqrt := sqrt;
  fabs := Rabs;
  fltb := fun x y => if Rlt_dec x y then true else false;
  fleb := fun x y => if Rle_dec x y then true else false;
  of_int := IZR;
  MaxFloat64 := IZR ((2 ^ 53 - 1) * 2 ^ 971)
}.

(** ** Package geom *)

Module geom.
Section Kernel.
Context {F : Type} `{Scalar F}.
#[local] Open Scope F_scope.

(** A Point2d lies on a plane orthogonal to the z-axis. *)
Record Point2d := mkPoint2d { P2X : F; P2Y : F }.

(** A Plane2d is a bounded plane orthogonal to the z-axis: top-left and
    bottom-right corners, and depth. *)
Record Plane2d := mkPlane2d { Tl : Point2d; Br : Point2d; PlZ : F }.

(** [Plane2d.Validate]: [true] stands for the error return. *)
Definition Plane2d_invalid (p : Plane2d) : bool :=
  (P2X (Tl p) >=? P2X (Br p)) || (P2Y (Tl p) <=? P2Y (Br p)).

Definition Dx (p : Plane2d) : F := P2X (Br p) - P2X (Tl p).

Definition Dy (p : Plane2d) : F := P2Y (Tl p) - P2Y (Br p).

(** A Point is a 3-dimensional point. *)
Record Point := mkPoint { PX : F; PY : F; PZ : F }.

Definition FloatsEqual (lhs rhs epsilon : F) : bool :=
  fabs (lhs - rhs) <? epsilon.

Definition PointsEqual (lhs rhs : Point) (epsilon : F) : bool :=
  FloatsEqual (PX lhs) (PX rhs) epsilon &&
  FloatsEqual (PY lhs) (PY rhs) epsilon &&
  FloatsEqual (PZ lhs) (PZ rhs) epsilon.

Definition Origin : Point := mkPoint #0 #0 #0.

(** A Line is a line segment, Go's [[2]Point]: [L0] is [l[0]], [L1] is
    [l[1]]. *)
Record Line := mkLine { L0 : Point; L1 : Point }.

Record Vector := mkVector { VX : F; VY : F; VZ : F }.

Definition MakeVector (head tail : Point) : Vector :=
  mkVector (PX head - PX tail) (PY head - PY tail) (PZ head - PZ tail).

Definition Module (v : Vector) : F :=
  fsqrt (VX v * VX v + VY v * VY v + VZ v * VZ v).

Definition UnitVector (v : Vector) : Vector :=
  let m := Module v in
  mkVector (VX v / m) (VY v / m) (VZ v / m).

Definition DotProduct (lhs rhs : Vector) : F :=
  VX lhs * VX rhs + VY lhs * VY rhs + VZ lhs * VZ rhs.

Definition VectorsEqual (lhs rhs : Vector) (epsilon : F) : bool :=
  FloatsEqual (VX lhs) (VX rhs) epsilon &&
  FloatsEqual (VY lhs) (VY rhs) epsilon &&
  FloatsEqual (VZ lhs) (VZ rhs) epsilon.

Record Sphere := mkSphere { Center : Point; Radius : F }.

(** [Sphere.Validate]: [true] stands for the error return. *)
Definition Sphere_invalid (s : Sphere) : bool := Radius s <? #0.

Definition NormalVectorAt (s : Sphere) (p : Point) : Vector :=
  let v := MakeVector p (Center s) in
  UnitVector v.

(** The coefficients of the quadratic of [SphereLineIntersection] and its
    discriminant, in the order and association of the source. *)
Definition quad_a (l : Line) : F :=
  let dx := PX (L1 l) - PX (L0 l) in
  let dy := PY (L1 l) - PY (L0 l) in
  let dz := PZ (L1 l) - PZ (L0 l) in
  dx * dx + dy * dy + dz * dz.

Definition quad_b (s : Sphere) (l : Line) : F :=
  let dx := PX (L1 l) - PX (L0 l) in
  let dy := PY (L1 l) - PY (L0 l) in
  let dz := PZ (L1 l) - PZ (L0 l) in
  #2 * dx * (PX (L0 l) - PX (Center s)) +
  #2 * dy * (PY (L0 l) - PY (Center s)) +
  #2 * dz * (PZ (L0 l) - PZ (Center s)).

Definition quad_c (s : Sphere) (l : Line) : F :=
  let c := Center s in
  let o := L0 l in
  PX c * PX c + PY c * PY c + PZ c * PZ c +
  PX o * PX o + PY o * PY o + PZ o * PZ o -
  #2 * (PX c * PX o + PY c * PY o + PZ c * PZ o) -
  Radius s * Radius s.

Definition discriminant (s : Sphere) (l : Line) : F :=
  let a := quad_a l in
  let b := quad_b s l in
  let c := quad_c s l in
  b * b - #4 * a * c.

(** The point of the line at parameter [t]: [l[0] + t * (l[1] - l[0])]. *)
Definition point_at (l : Line) (t : F) : Point :=
  let dx := PX (L1 l) - PX (L0 l) in
  let dy := PY (L1 l) - PY (L0 l) in
  let dz := PZ (L1 l) - PZ (L0 l) in
  mkPoint (PX (L0 l) + t * dx) (PY (L0 l) + t * dy) (PZ (L0 l) + t * dz).

(** Return the point nearest from [l[0]] intersecting [s] and [l], the
    parameter [t] and [ok]. *)
Definition SphereLineIntersection (s : Sphere) (l : Line)
  : Point * F * bool :=
  let a := quad_a l in
  let b := quad_b s l in
  let d := discriminant s l in
  if d <? #0 then (Origin, MaxFloat64, false)
  else
    let t := (- b - fsqrt d) / (#2 * a) in
    (point_at l t, t, true).

End Kernel.
Arguments Point2d F : clear implicits.
Arguments Plane2d F : clear implicits.
Arguments Point F : clear implicits.
Arguments Line F : clear implicits.
Arguments Vector F : clear implicits.
Arguments Sphere F : clear implicits.
End geom.

(** ** Go conversions and the standard image package *)

(** The integer part of a float, towards zero; 0 for NaN and the
    infinities. *)
Definition trunc (f : float) : Z :=
  match Prim2SF f with
  | S754_finite s m e =>
      let a := if 0 <=? e then Z.pos m * 2 ^ e else Z.pos m / 2 ^ (- e) in
      if s then - a else a
  | _ => 0
  end.

(** Go's [uint8(f)]: the fraction is discarded.  When the integer part is
    outside 0..255 Go leaves the result to the implementation; here the low
    eight bits are kept. *)
Definition uint8_of_float64 (f : float) : Z := trunc f mod 256.

(** Go's [int(f)]: the fraction is discarded; Go leaves values outside the
    range of [int] (NaN and the infinities among them) to the
    implementation. *)
Definition int_of_float64 (f : float) : Z := trunc f.

Module image.

(** [color.RGBA]: four 8-bit channels. *)
Record RGBA := mkRGBA { R8 : Z; G8 : Z; B8 : Z; A8 : Z }.

Record Rectangle := mkRectangle { MinX : Z; MinY : Z; MaxX : Z; MaxY : Z }.

(** [image.Rect]: the corners are swapped where needed so that the
    rectangle is well formed. *)
Definition Rect (x0 y0 x1 y1 : Z) : Rectangle :=
  let '(x0, x1) := if x1 <? x0 then (x1, x0) else (x0, x1) in
  let '(y0, y1) := if y1 <? y0 then (y1, y0) else (y0, y1) in
  mkRectangle x0 y0 x1 y1.

(** [image.RGBA]: the pixel bytes in R, G, B, A order, the distance in
    bytes between vertically adjacent pixels, and the bounds. *)
Record Image := mkImage { Pix : list Z; Stride : Z; Bounds : Rectangle }.

(** [image.NewRGBA]: a zeroed buffer of four bytes per pixel.  (Go panics
    instead when the byte count does not fit an [int].) *)
Definition NewRGBA (r : Rectangle) : Image :=
  let w := MaxX r - MinX r in
  let h := MaxY r - MinY r in
  mkImage (replicate (Z.to_nat (4 * w * h)) 0) (4 * w) r.

(** [Point.In]. *)
Definition In (x y : Z) (r : Rectangle) : bool :=
  (MinX r <=? x) && (x <? MaxX r) && (MinY r <=? y) && (y <? MaxY r).

Definition PixOffset (p : Image) (x y : Z) : Z :=
  (y - MinY (Bounds p)) * Stride p + (x - MinX (Bounds p)) * 4.

(** [RGBA.SetRGBA]: a write outside the bounds is dropped. *)
Definition SetRGBA (p : Image) (x y : Z) (c : RGBA) : Image :=
  if negb (In x y (Bounds p)) then p
  else
    let i := Z.to_nat (PixOffset p x y) in
    mkImage
      (<[(i + 3)%nat := A8 c]>
         (<[(i + 2)%nat := B8 c]> (<[(i + 1)%nat := G8 c]> (<[i := R8 c]> (Pix p)))))
      (Stride p) (Bounds p).

(** [RGBA.RGBAAt]: the zero color outside the bounds. *)
Definition RGBAAt (p : Image) (x y : Z) : RGBA :=
  if negb (In x y (Bounds p)) then mkRGBA 0 0 0 0
  else
    let i := Z.to_nat (PixOffset p x y) in
    mkRGBA (Pix p !!! i) (Pix p !!! (i + 1)%nat)
           (Pix p !!! (i + 2)%nat) (Pix p !!! (i + 3)%nat).

End image.

(** ** Package raytracer *)

Module raytracer.
Import geom image.
#[local] Open Scope F_scope.

(** Errors as [fmt.Errorf] builds them: a message, the value it prints,
    and the error it wraps ([ErrWrap prefix e] is "prefix: e"). *)
Inductive error :=
| ErrNegativeRadius                       (* invalid sphere: negative radius *)
| ErrPlane (p : Plane2d float)            (* negative or null plane width or height: p *)
| ErrColorRange (r g b : float)           (* color out-of-range: c *)
| ErrDiffuse (kd : float)                 (* invalid scene diffuse coefficient: kd *)
| ErrWrap (prefix : string) (e : error).

(** A Color is a red/green/blue triplet of color channels in [0..1]
    range. *)
Record Color := mkColor { CR : float; CG : float; CB : float }.

Definition isColorChannelValid (c : float) : bool :=
  (#0 <=? c) && (c <=? #1).

Definition Color_Validate (c : Color) : option error :=
  if isColorChannelValid (CR c) && isColorChannelValid (CG c)
     && isColorChannelValid (CB c)
  then None
  else Some (ErrColorRange (CR c) (CG c) (CB c)).

(** toRGBA converts to standard 32bpp. *)
Definition toRGBA (c : Color) : RGBA :=
  mkRGBA (uint8_of_float64 (CR c * #255)) (uint8_of_float64 (CG c * #255))
         (uint8_of_float64 (CB c * #255)) 255.

Definition geom_Sphere_Validate (s : geom.Sphere float) : option error :=
  if Sphere_invalid s then Some ErrNegativeRadius else None.

Definition Plane2d_Validate (p : Plane2d float) : option error :=
  if Plane2d_invalid p then Some (ErrPlane p) else None.

(** Sphere objects are part of the scene to render. *)
Record Sphere := mkSphere { Sphere_ : geom.Sphere float; Color_ : Color }.

Definition Sphere_Validate (s : Sphere) : option error :=
  match geom_Sphere_Validate (Sphere_ s) with
  | Some err => Some err
  | None =>
      match Color_Validate (Color_ s) with
      | Some err => Some (ErrWrap "invalid sphere" err)
      | None => None
      end
  end.

(** A Frustum is a pyramidal viewing frustum orthogonal to the z-axis. *)
Record Frustum := mkFrustum { Near : Plane2d float; Far : Plane2d float }.

Definition Frustum_Validate (f : Frustum) : option error :=
  match Plane2d_Validate (Near f) with
  | Some err => Some (ErrWrap "invalid near frustum plane" err)
  | None =>
      match Plane2d_Validate (Far f) with
      | Some err => Some (ErrWrap "invalid far frustum plane" err)
      | None => None
      end
  end.

(** The Scene to render. *)
Record Scene := mkScene {
  ViewFrustum : Frustum;
  Light : Point float;
  Objects : list Sphere;
  Bg : Color;
  Kd : float
}.

(** The loop of [Scene.Validate] over the objects: the first error
    ends it. *)
Fixpoint Validate_objects (os : list Sphere) : option error :=
  match os with
  | [] => None
  | o :: os' =>
      match Sphere_Validate o with
      | Some err => Some (ErrWrap "invalid scene object" err)
      | None => Validate_objects os'
      end
  end.

Definition Validate (s : Scene) : option error :=
  match Validate_objects (Objects s) with
  | Some err => Some err
  | None =>
      match Color_Validate (Bg s) with
      | Some err => Some (ErrWrap "invalid scene background" err)
      | None =>
          if (Kd s <? #0) || (Kd s >? #1)
          then Some (ErrDiffuse (Kd s))
          else
            match Frustum_Validate (ViewFrustum s) with
            | Some err => Some (ErrWrap "invalid scene frustum" err)
            | None => None
            end
      end
  end.

(** diffuseShading computes a color channel value taking into account the
    diffuse and ambiant coefficients and the angle between the pixel and
    light source. *)
Definition diffuseShading (factor kd channel : float) : float :=
  let ka := #1 - kd in
  factor * kd * channel + factor * ka.

(** rayHitsObject returns whether the ray intersects one object in the
    scene. *)
Fixpoint rayHitsObject_loop (os : list Sphere) (ray : Line float) : bool :=
  match os with
  | [] => false
  | o :: os' =>
      let '(_, _, ok) := SphereLineIntersection (Sphere_ o) ray in
      if ok then true else rayHitsObject_loop os' ray
  end.

Definition rayHitsObject (s : Scene) (ray : Line float) : bool :=
  rayHitsObject_loop (Objects s) ray.

(** The loop of [castRay] from index [i] on, over the state
    [(pmin, tmin, imin)]. *)
Fixpoint castRay_loop (ray : Line float) (os : list Sphere) (i : Z)
  (st : Point float * float * Z) : Point float * float * Z :=
  match os with
  | [] => st
  | o :: os' =>
      let '(_, tmin, _) := st in
      let '(p, t, ok) := SphereLineIntersection (Sphere_ o) ray in
      castRay_loop ray os' (i + 1)%Z
        (if ok then if t <? tmin then (p, t, i) else st else st)
  end.

(** castRay finds the nearest intersection point between the ray and the
    scene objects.  The pointer [&s.Objects[imin]] is the index [imin];
    [None] is the nil pointer. *)
Definition castRay (s : Scene) (ray : Line float)
  : option nat * Point float :=
  let '(pmin, _, imin) :=
    castRay_loop ray (Objects s) 0%Z (mkPoint #0 #0 #0, MaxFloat64, (-1)%Z) in
  if (imin =? -1)%Z then (None, Origin) else (Some (Z.to_nat imin), pmin).

(** What a pointer into [s.Objects] points to. *)
#[export] Instance Sphere_inhabited : Inhabited Sphere :=
  populate (mkSphere (geom.mkSphere (mkPoint #0 #0 #0) #0) (mkColor #0 #0 #0)).

Definition deref (s : Scene) (obj : nat) : Sphere := Objects s !!! obj.

Definition computeObjectColorAt (s : Scene) (obj : Sphere) (p : Point float)
  : Color :=
  let normal := NormalVectorAt (Sphere_ obj) p in
  let light := MakeVector (Light s) p in
  let light := UnitVector light in
  let dot := DotProduct light normal in
  let dot := if dot <? #0 then #0 else dot in
  let r := diffuseShading dot (Kd s) (CR (Color_ obj)) in
  let g := diffuseShading dot (Kd s) (CG (Color_ obj)) in
  let b := diffuseShading dot (Kd s) (CB (Color_ obj)) in
  mkColor r g b.

Definition bgShadowPixel (c : Color) : Color :=
  mkColor (CR c / #2) (CG c / #2) (CB c / #2).

(** The first lines of [renderPixel]: the point of the far plane the
    pixel is extrapolated to, and the primary ray. *)
Definition farPoint (s : Scene) (x y : float) : Point float :=
  let xfar := x * Dx (Far (ViewFrustum s)) / Dx (Near (ViewFrustum s)) in
  let yfar := y * Dy (Far (ViewFrustum s)) / Dx (Near (ViewFrustum s)) in
  mkPoint xfar yfar (PlZ (Far (ViewFrustum s))).

Definition primaryRay (s : Scene) (x y : float) : Line float :=
  mkLine (mkPoint x y (PlZ (Near (ViewFrustum s)))) (farPoint s x y).

(** The color [c] that [renderPixel] computes before converting it. *)
Definition pixelColor (s : Scene) (x y : float) : Color :=
  let ray := primaryRay s x y in
  match castRay s ray with
  | (Some obj, intersection) =>
      (* Is intersection shadowed by another object? *)
      let sray := mkLine (Light s) intersection in
      let '(other, _) := castRay s sray in
      if match other with Some o => negb (o =? obj)%nat | None => false end
      then mkColor ((#1 - Kd s) * CR (Color_ (deref s obj)))
                   ((#1 - Kd s) * CG (Color_ (deref s obj)))
                   ((#1 - Kd s) * CB (Color_ (deref s obj)))
      else computeObjectColorAt s (deref s obj) intersection
  | (None, _) =>
      let sray := mkLine (farPoint s x y) (Light s) in
      if rayHitsObject s sray
      then mkColor (CR (Bg s) / #2) (CG (Bg s) / #2) (CB (Bg s) / #2)
      else Bg s
  end.

Definition renderPixel (s : Scene) (x y : float) : RGBA :=
  toRGBA (pixelColor s x y).

(** One call of [img.SetRGBA(x, y, c)]. *)
Record write := mkWrite { WX : Z; WY : Z; WC : RGBA }.

Definition perform (img : Image) (w : write) : Image :=
  SetRGBA img (WX w) (WY w) (WC w).

Definition run (ws : list write) (img : Image) : Image :=
  fold_left perform ws img.

(** The color [Render] computes for the pixel [(x, y)] of the image;
    [vp] is the near plane. *)
Definition pixel (s : Scene) (x y : Z) : RGBA :=
  let vp := Near (ViewFrustum s) in
  renderPixel s (float64_of_int x + P2X (Tl vp))
                (- P2Y (Br vp) - float64_of_int y).

(** The body of one goroutine of [Render], rows [ystart] to [yend - 1]:
    the writes it performs, in its order ([stripe_row] is the loop over
    [x], [stripe] the loop over [y]). *)
Definition stripe_row (s : Scene) (w y : Z) : list write :=
  (fun x => mkWrite x y (pixel s x y)) <$> seqZ 0 w.

Definition stripe (s : Scene) (w ystart yend : Z) : list write :=
  y ← seqZ ystart (yend - ystart); stripe_row s w y.

(** The goroutines [Render] starts, one per stripe. *)
Definition stripes (s : Scene) (w h nstripes : Z) : list (list write) :=
  let slice := Z.quot h nstripes in
  (fun n => let ystart := slice * n in
            let yend := ystart + slice in
            stripe s w ystart yend)%Z
  <$> seqZ 0 nstripes.

(** The goroutines run concurrently: the writes reach the image in some
    interleaving of the goroutines' sequences. *)
Inductive interleaving : list (list write) -> list write -> Prop :=
| interleaving_done ts :
    Forall (fun t => t = []) ts -> interleaving ts []
| interleaving_step ts1 w t ts2 ws :
    interleaving (ts1 ++ t :: ts2) ws ->
    interleaving (ts1 ++ (w :: t) :: ts2) (w :: ws).

(** What [Render] does before it starts the goroutines: the clamp of
    [nstripes], the validation, the size of the image from the near plane
    and the empty image. *)
Definition clamp (nstripes : Z) : Z :=
  if (nstripes <? 1)%Z then 1%Z else nstripes.

Definition width (s : Scene) : Z := int_of_float64 (Dx (Near (ViewFrustum s))).

Definition height (s : Scene) : Z := int_of_float64 (Dy (Near (ViewFrustum s))).

Definition blank (s : Scene) : Image :=
  NewRGBA (Rect 0 0 (width s) (height s)).

(** Render validates the scene and runs the ray-tracing algorithm over
    it.  The stripes are run here one after the other, in the order they
    are started; [Render_schedule] is the same with the writes in an
    arbitrary interleaving. *)
Definition Render (s : Scene) (nstripes : Z) : error + Image :=
  let nstripes := clamp nstripes in
  match Validate s with
  | Some err => inl err
  | None =>
      inr (run (concat (stripes s (width s) (height s) nstripes)) (blank s))
  end.

Inductive Render_schedule (s : Scene) (nstripes : Z) : error + Image -> Prop :=
| Render_invalid err :
    Validate s = Some err -> Render_schedule s nstripes (inl err)
| Render_valid ws :
    Validate s = None ->
    interleaving (stripes s (width s) (height s) (clamp nstripes)) ws ->
    Render_schedule s nstripes (inr (run ws (blank s))).

End raytracer.

(** ** Scenes and inputs the properties are evaluated on *)

Module inputs.
Import geom image raytracer.
#[local] Open Scope float_scope.

Definition plane (tlx tly brx bry z : float) : Plane2d float :=
  mkPlane2d (mkPoint2d tlx tly) (mkPoint2d brx bry) z.

Definition point (x y z : float) : Point float := mkPoint x y z.

Definition vector (x y z : float) : Vector float := mkVector x y z.

Definition sphere (x y z r : float) : geom.Sphere float :=
  geom.mkSphere (mkPoint x y z) r.

Definition line (x0 y0 z0 x1 y1 z1 : float) : Line float :=
  mkLine (mkPoint x0 y0 z0) (mkPoint x1 y1 z1).

(** The same in exact arithmetic. *)
Definition exact_point (x y z : R) : Point R := mkPoint x y z.

Definition exact_sphere (x y z r : R) : geom.Sphere R :=
  geom.mkSphere (mkPoint x y z) r.

Definition exact_line (x0 y0 z0 x1 y1 z1 : R) : Line R :=
  mkLine (mkPoint x0 y0 z0) (mkPoint x1 y1 z1).

Definition ball (x y z r cr cg cb : float) : raytracer.Sphere :=
  raytracer.mkSphere (geom.mkSphere (mkPoint x y z) r) (mkColor cr cg cb).

(** Two spheres: a red one in front of the camera and a green one
    between it and the light. *)
Definition scene_two_spheres : Scene :=
  mkScene (mkFrustum (plane (-4) 4 4 (-4) 0) (plane (-8) 8 8 (-8) 10))
          (mkPoint 5 0 (-5))
          [ball 0 0 5 1 1 0 0; ball 2.5 0 0 1 0 1 0]
          (mkColor 0.25 0.5 0.75) 0.25.

(** The sphere of the package's tests, seen through a frustum whose far
    plane is its near plane: every primary ray has equal endpoints. *)
Definition scene_flat : Scene :=
  mkScene (mkFrustum (plane 0 4 4 0 0) (plane 0 4 4 0 0))
          (mkPoint 0 0 (-10))
          [ball 7 5 0 2 1 0 0]
          (mkColor 0 0 0) 0.5.

(** The same sphere with the light on the far plane, where the pixel
    (1, 1) is extrapolated to. *)
Definition scene_light_on_far : Scene :=
  mkScene (mkFrustum (plane 0 4 4 0 0) (plane 0 8 8 0 10))
          (mkPoint 2 2 10)
          [ball 7 5 0 2 1 0 0]
          (mkColor 0.25 0.5 0.75) 0.5.

(** A near plane twice as wide as it is high (4 by 2), a far plane of 8
    by 4. *)
Definition scene_wide : Scene :=
  mkScene (mkFrustum (plane 0 2 4 0 0) (plane 0 4 8 0 20))
          (mkPoint 0 0 (-10))
          [ball 7 5 0 2 1 0 0]
          (mkColor 0.25 0.5 0.75) 0.5.

(** A near plane of 2 by 6 pixels. *)
Definition scene_six_rows : Scene :=
  mkScene (mkFrustum (plane 0 6 2 0 0) (plane 0 12 4 0 10))
          (mkPoint 0 0 (-10))
          [ball 1 (-3) 5 1 1 0 0]
          (mkColor 0.25 0.5 0.75) 0.5.

(** A scene that is in order but for its diffuse coefficient, which is
    not a number. *)
Definition scene_nan_kd : Scene :=
  mkScene (mkFrustum (plane 0 4 4 0 0) (plane 0 8 8 0 10))
          (mkPoint 0 0 (-10))
          [ball 7 5 0 2 1 0 0]
          (mkColor 0 0 0) nan.

(** The first sphere of [scene_two_spheres] alone. *)
Definition scene_one_sphere : Scene :=
  mkScene (mkFrustum (plane (-4) 4 4 (-4) 0) (plane (-8) 8 8 (-8) 10))
          (mkPoint 5 0 (-5))
          [ball 0 0 5 1 1 0 0]
          (mkColor 0.25 0.5 0.75) 0.25.

(** No object at all. *)
Definition scene_empty : Scene :=
  mkScene (mkFrustum (plane 0 6 2 0 0) (plane 0 12 4 0 10))
          (mkPoint 0 0 (-10))
          []
          (mkColor 0.25 0.5 0.75) 0.5.

(** A sphere that is in order and a sphere whose radius is not a
    number. *)
Definition scene_nan_radius : Scene :=
  mkScene (mkFrustum (plane 0 4 4 0 0) (plane 0 8 8 0 10))
          (mkPoint 0 0 (-10))
          [ball 2 2 5 1 1 0 0; ball 7 5 0 nan 0 1 0]
          (mkColor 0.25 0.5 0.75) 0.5.

(** [scene_one_sphere] with a light whose ordinate is not a number. *)
Definition scene_nan_light : Scene :=
  mkScene (mkFrustum (plane (-4) 4 4 (-4) 0) (plane (-8) 8 8 (-8) 10))
          (mkPoint 5 nan (-5))
          [ball 0 0 5 1 1 0 0]
          (mkColor 0.25 0.5 0.75) 0.25.

(** Three defects: the green channel of the second object, the radius of
    the third, and the diffuse coefficient. *)
Definition scene_three_defects : Scene :=
  mkScene (mkFrustum (plane 0 4 4 0 0) (plane 0 8 8 0 10))
          (mkPoint 0 0 (-10))
          [ball 2 2 5 1 1 0 0; ball 7 5 0 2 0 1.5 0; ball 0 0 0 (-1) 0 0 0]
          (mkColor 0.25 0.5 0.75) 7.

End inputs.

(** ** The invariants of the data model, in the words of the specification

    A sphere has a radius that is at least 0, a color has its channels in
    [0, 1], a plane has [tl.x < br.x] and [tl.y > br.y], the diffuse
    coefficient is in [0, 1]. *)

Module invariants.
Import geom raytracer.

Definition spec_sphere_ok (s : geom.Sphere float) : bool :=
  (#0 <=? Radius s)%sc.

Definition spec_channel_ok (c : float) : bool :=
  ((#0 <=? c) && (c <=? #1))%sc.

Definition spec_color_ok (c : Color) : bool :=
  spec_channel_ok (CR c) && spec_channel_ok (CG c) && spec_channel_ok (CB c).

Definition spec_plane_ok (p : Plane2d float) : bool :=
  ((P2X (Tl p) <? P2X (Br p)) && (P2Y (Tl p) >? P2Y (Br p)))%sc.

Definition spec_kd_ok (kd : float) : bool :=
  ((#0 <=? kd) && (kd <=? #1))%sc.

Definition spec_object_ok (o : raytracer.Sphere) : bool :=
  spec_sphere_ok (Sphere_ o) && spec_color_ok (Color_ o).

Definition spec_scene_ok (s : Scene) : bool :=
  forallb spec_object_ok (Objects s) && spec_color_ok (Bg s)
  && spec_kd_ok (Kd s)
  && spec_plane_ok (Near (ViewFrustum s)) && spec_plane_ok (Far (ViewFrustum s)).

(** No radius, diffuse coefficient or plane corner of the scene is NaN. *)
Definition plane_nan_free (p : Plane2d float) : bool :=
  negb (is_nan (P2X (Tl p))) && negb (is_nan (P2X (Br p)))
  && negb (is_nan (P2Y (Tl p))) && negb (is_nan (P2Y (Br p))).

Definition nan_free (s : Scene) : bool :=
  forallb (fun o => negb (is_nan (Radius (Sphere_ o)))) (Objects s)
  && negb (is_nan (Kd s))
  && plane_nan_free (Near (ViewFrustum s)) && plane_nan_free (Far (ViewFrustum s)).

(** The point of the far plane a pixel is extrapolated to, in the words
    of the specification: each coordinate scaled by the far-to-near ratio
    of its own extent. *)
Definition spec_farPoint (s : Scene) (x y : float) : Point float :=
  let near := Near (ViewFrustum s) in
  let far := Far (ViewFrustum s) in
  mkPoint (x * Dx far / Dx near)%sc (y * Dy far / Dy near)%sc (PlZ far).

End invariants.

(** ** Predicates of the statements *)

Module predicates.
Import geom image raytracer.

(** The ray meets the object: [SphereLineIntersection] answers [ok] with
    the point [p] at parameter [t]. *)
Definition intersects (ray : Line float) (o : raytracer.Sphere)
  (p : Point float) (t : float) : Prop :=
  SphereLineIntersection (Sphere_ o) ray = (p, t, true).

(** The checks of [Sphere.Validate] pass on the object. *)
Definition object_passes (o : raytracer.Sphere) : Prop :=
  Sphere_invalid (Sphere_ o) = false /\ Color_Validate (Color_ o) = None.

(** An image as [NewRGBA] makes it: four bytes per pixel of its bounds,
    row after row. *)
Definition well_formed (p : Image) : Prop :=
  let r := Bounds p in
  MinX r <= MaxX r /\ MinY r <= MaxY r /\
  Stride p = 4 * (MaxX r - MinX r) /\
  Z.of_nat (length (Pix p)) = 4 * (MaxX r - MinX r) * (MaxY r - MinY r).

(** One line of the table of [TestSphereLineIntersection]: the answer
    [ok] is the expected one and, with [ok], the point is the expected
    one within 0.01. *)
Definition test_intersection (l : Line float) (s : geom.Sphere float)
  (intersect : bool) (p : Point float) : bool :=
  let '(i, _, ok) := SphereLineIntersection s l in
  eqb intersect ok && (negb ok || PointsEqual i p 0.01%float).

(** Classes of binary64 values, on the specification of the format: a
    zero or NaN; a zero or a finite number; a number or an infinity of a
    given sign. *)
Definition SFzon (a : spec_float) : Prop :=
  match a with S754_zero _ | S754_nan => True | _ => False end.

Definition SFfin (a : spec_float) : Prop :=
  match a with S754_zero _ | S754_finite _ _ _ => True | _ => False end.

Definition SFsigned (s : bool) (a : spec_float) : Prop :=
  match a with
  | S754_finite s' _ _ | S754_infinity s' => s' = s
  | _ => False
  end.

Definition zon (x : float) : Prop := SFzon (Prim2SF x).

(** The three coordinates are finite numbers; one of them is NaN. *)
Definition finite_point (p : Point float) : bool :=
  is_finite (PX p) && is_finite (PY p) && is_finite (PZ p).

Definition point_has_nan (p : Point float) : bool :=
  is_nan (PX p) || is_nan (PY p) || is_nan (PZ p).

Definition sphere_has_nan (s : geom.Sphere float) : bool :=
  is_nan (Radius s) || point_has_nan (Center s).

Definition nan_point : Point float := mkPoint nan nan nan.

Definition nan_vector : Vector float := mkVector nan nan nan.

Definition nan_color : Color := mkColor nan nan nan.

(** The condition of [Color.Validate], and the error it returns. *)
Definition channels_valid (c : Color) : bool :=
  isColorChannelValid (CR c) && isColorChannelValid (CG c)
  && isColorChannelValid (CB c).

Definition color_error (c : Color) : error :=
  ErrColorRange (CR c) (CG c) (CB c).

(** The first check of [Scene.Validate] that fails, with the error it
    reports: the checks in the order of the source, each one under the
    condition that the ones before it pass. *)
Inductive first_violation (s : Scene) : error -> Prop :=
| violation_radius pre o post :
    Objects s = pre ++ o :: post -> Forall object_passes pre ->
    (Radius (Sphere_ o) <? 0)%float = true ->
    first_violation s (ErrWrap "invalid scene object" ErrNegativeRadius)
| violation_object_color pre o post :
    Objects s = pre ++ o :: post -> Forall object_passes pre ->
    (Radius (Sphere_ o) <? 0)%float = false ->
    channels_valid (Color_ o) = false ->
    first_violation s
      (ErrWrap "invalid scene object"
         (ErrWrap "invalid sphere" (color_error (Color_ o))))
| violation_background :
    Forall object_passes (Objects s) ->
    channels_valid (Bg s) = false ->
    first_violation s (ErrWrap "invalid scene background" (color_error (Bg s)))
| violation_diffuse :
    Forall object_passes (Objects s) ->
    channels_valid (Bg s) = true ->
    (Kd s <? 0)%float || (1 <? Kd s)%float = true ->
    first_violation s (ErrDiffuse (Kd s))
| violation_near :
    Forall object_passes (Objects s) ->
    channels_valid (Bg s) = true ->
    (Kd s <? 0)%float || (1 <? Kd s)%float = false ->
    Plane2d_invalid (Near (ViewFrustum s)) = true ->
    first_violation s
      (ErrWrap "invalid scene frustum"
         (ErrWrap "invalid near frustum plane" (ErrPlane (Near (ViewFrustum s)))))
| violation_far :
    Forall object_passes (Objects s) ->
    channels_valid (Bg s) = true ->
    (Kd s <? 0)%float || (1 <? Kd s)%float = false ->
    Plane2d_invalid (Near (ViewFrustum s)) = false ->
    Plane2d_invalid (Far (ViewFrustum s)) = true ->
    first_violation s
      (ErrWrap "invalid scene frustum"
         (ErrWrap "invalid far frustum plane" (ErrPlane (Far (ViewFrustum s))))).

(** The pixels the stripes of [Render] write: the columns of the image
    and the rows below [nstripes * slice], for the clamped [nstripes]. *)
Definition covered (s : Scene) (nstripes x y : Z) : bool :=
  (0 <=? x) && (x <? width s) && (0 <=? y)
  && (y <? clamp nstripes * Z.quot (height s) (clamp nstripes)).

(** The line [l] with its second point moved along it to the parameter
    [k]: [l[0] + k * (l[1] - l[0])]. *)
Definition rescale {F : Type} `{Scalar F} (l : Line F) (k : F) : Line F :=
  mkLine (L0 l) (point_at l k).

(** No object of the list is met by the ray. *)
Definition all_missed (os : list raytracer.Sphere) (ray : Line float) : Prop :=
  Forall (fun o => (SphereLineIntersection (Sphere_ o) ray).2 = false) os.

End predicates.

(** * Properties *)

Import geom image raytracer invariants predicates.

(** ** The tests of package geom, run on the embedding *)

Lemma TestSphereLineIntersection :
  test_intersection (inputs.line 0 0 0 4 2 0) (inputs.sphere 7 5 0 2)
    true (inputs.point 6.27 3.13 0) = true /\
  test_intersection (inputs.line 1 0.5 0 4 2 0) (inputs.sphere 7 5 0 2)
    true (inputs.point 6.27 3.13 0) = true /\
  test_intersection (inputs.line 1 0.5 0 4 2 0) (inputs.sphere 7 5 1 2)
    true (inputs.point 6.62 3.31 0) = true /\
  test_intersection (inputs.line 1 0 0.5 4 0 2) (inputs.sphere 7 0 5 2)
    true (inputs.point 6.27 0 3.13) = true /\
  test_intersection (inputs.line 1 0.5 0 4 2 0) (inputs.sphere 7 5 1 1)
    false (inputs.point 0 0 0) = true.
Proof. vm_compute. done. Qed.

Lemma TestSphereNormalVector :
  VectorsEqual (NormalVectorAt (inputs.sphere 1 1 1 4) (inputs.point 5 1 1))
               (inputs.vector 1 0 0) 0.01%float = true.
Proof. vm_compute. reflexivity. Qed.

Lemma TestDotProduct :
  DotProduct (inputs.vector 2 3 4) (inputs.vector 3 4 5)
  = float64_of_int (2 * 3 + 3 * 4 + 4 * 5).
Proof. vm_compute. reflexivity. Qed.

(** ** The order of binary64

    [<] and [<=] on floats are a lexicographic comparison of sign,
    exponent and mantissa, false whenever an operand is NaN. *)

Section FloatOrder.

#[local] Ltac sf_signs :=
  repeat match goal with s : bool |- _ => destruct s end;
  simpl; try congruence.

Lemma SFleb_ltb_trans a b c :
  SFleb a b = true -> SFltb b c = true -> SFltb a c = true.
Proof.
  unfold SFleb, SFltb, SFcompare.
  destruct a as [sa|sa| |sa ma ea], b as [sb|sb| |sb mb eb],
           c as [sc|sc| |sc mc ec]; sf_signs.
  all: rewrite ?Pos.compare_cont_spec; simpl.
  all: destruct (Z.compare_spec ea eb), (Z.compare_spec eb ec),
         (Z.compare_spec ea ec); try lia; simpl; try congruence.
  all: subst.
  all: destruct (Pos.compare_spec ma mb), (Pos.compare_spec mb mc),
         (Pos.compare_spec ma mc); simpl; try congruence; try lia.
Qed.

Lemma SFcompare_opp a b :
  SFcompare b a = option_map CompOpp (SFcompare a b).
Proof.
  unfold SFcompare.
  destruct a as [sa|sa| |sa ma ea], b as [sb|sb| |sb mb eb]; sf_signs.
  all: rewrite ?Pos.compare_cont_spec; simpl.
  all: rewrite (Z.compare_antisym ea eb), (Pos.compare_antisym ma mb).
  all: destruct (ea ?= eb); simpl; try congruence.
  all: destruct (ma ?= mb)%positive; simpl; congruence.
Qed.

Lemma float_ltb_leb (x y : float) :
  (x <? y)%sc = true -> (x <=? y)%sc = true.
Proof.
  simpl. rewrite FloatAxioms.ltb_spec, FloatAxioms.leb_spec. unfold SFleb, SFltb.
  destruct (SFcompare _ _) as [[]|]; congruence.
Qed.

Lemma float_leb_ltb_trans (x y z : float) :
  (x <=? y)%sc = true -> (y <? z)%sc = true -> (x <? z)%sc = true.
Proof. simpl. rewrite FloatAxioms.leb_spec, !FloatAxioms.ltb_spec. apply SFleb_ltb_trans. Qed.

Lemma float_ltb_trans (x y z : float) :
  (x <? y)%sc = true -> (y <? z)%sc = true -> (x <? z)%sc = true.
Proof. intros Hxy. apply float_leb_ltb_trans, float_ltb_leb, Hxy. Qed.

Lemma float_ltb_not_leb (x y : float) :
  (x <? y)%sc = true -> (y <=? x)%sc = false.
Proof.
  simpl. rewrite FloatAxioms.ltb_spec, FloatAxioms.leb_spec. unfold SFleb, SFltb.
  rewrite (SFcompare_opp (Prim2SF x) (Prim2SF y)).
  destruct (SFcompare _ _) as [[]|]; simpl; congruence.
Qed.

Lemma float_not_leb_not_ltb (x y : float) :
  (x <=? y)%sc = false -> (x <? y)%sc = false.
Proof.
  intros Hle. destruct (x <? y)%sc eqn:Hlt; [|done].
  apply float_ltb_leb in Hlt. congruence.
Qed.

Lemma float_ltb_irrefl (x : float) : (x <? x)%sc = false.
Proof.
  destruct (x <? x)%sc eqn:Hlt; [|done].
  pose proof (float_ltb_not_leb _ _ Hlt).
  apply float_ltb_leb in Hlt. congruence.
Qed.

Lemma float_eqb_leb (x y : float) :
  PrimFloat.eqb x y = true -> (x <=? y)%sc = true.
Proof.
  simpl. rewrite FloatAxioms.eqb_spec, FloatAxioms.leb_spec. unfold SFeqb, SFleb.
  destruct (SFcompare _ _) as [[]|]; congruence.
Qed.

Lemma float_eqb_geb (x y : float) :
  PrimFloat.eqb x y = true -> (y <=? x)%sc = true.
Proof.
  simpl. rewrite FloatAxioms.eqb_spec, FloatAxioms.leb_spec.
  unfold SFeqb, SFleb. rewrite (SFcompare_opp (Prim2SF x) (Prim2SF y)).
  destruct (SFcompare _ _) as [[]|]; simpl; congruence.
Qed.

Lemma SFcompare_refl a : a <> S754_nan -> SFcompare a a = Some Eq.
Proof.
  destruct a as [s|s| |s m e]; sf_signs; intros _.
  all: rewrite Z.compare_refl, Pos.compare_cont_spec, Pos.compare_refl; done.
Qed.

Lemma SFcompare_None a b :
  SFcompare a b = None -> a = S754_nan \/ b = S754_nan.
Proof. destruct a, b; simpl; intros; try discriminate; auto. Qed.

Lemma is_nan_false (x : float) : is_nan x = false -> Prim2SF x <> S754_nan.
Proof.
  unfold is_nan. rewrite FloatAxioms.eqb_spec. unfold SFeqb. intros Hx Hn.
  rewrite Hn in Hx. simpl in Hx. done.
Qed.

(** Without NaN the order is total. *)
Lemma float_not_ltb_leb (x y : float) :
  is_nan x = false -> is_nan y = false ->
  (x <? y)%sc = false -> (y <=? x)%sc = true.
Proof.
  intros Hx%is_nan_false Hy%is_nan_false. simpl.
  rewrite FloatAxioms.ltb_spec, FloatAxioms.leb_spec. unfold SFltb, SFleb.
  rewrite (SFcompare_opp (Prim2SF x) (Prim2SF y)).
  destruct (SFcompare (Prim2SF x) (Prim2SF y)) as [[]|] eqn:Hc; simpl; try done.
  apply SFcompare_None in Hc as [|]; done.
Qed.

Lemma float_not_leb_ltb (x y : float) :
  is_nan x = false -> is_nan y = false ->
  (x <=? y)%sc = false -> (y <? x)%sc = true.
Proof.
  intros Hx%is_nan_false Hy%is_nan_false. simpl.
  rewrite FloatAxioms.ltb_spec, FloatAxioms.leb_spec. unfold SFltb, SFleb.
  rewrite (SFcompare_opp (Prim2SF x) (Prim2SF y)).
  destruct (SFcompare (Prim2SF x) (Prim2SF y)) as [[]|] eqn:Hc; simpl; try done.
  apply SFcompare_None in Hc as [|]; done.
Qed.
Lemma SFmul_comm prec emax a b : SFmul prec emax a b = SFmul prec emax b a.
Proof.
  destruct a as [sa|sa| |sa ma ea], b as [sb|sb| |sb mb eb]; simpl;
    rewrite ?(xorb_comm sa sb); try reflexivity.
  by rewrite (Pos.mul_comm ma mb), (Z.add_comm ea eb).
Qed.

Lemma float_mul_comm (x y : float) : (x * y)%sc = (y * x)%sc.
Proof.
  simpl. rewrite <- (SF2Prim_Prim2SF (x * y)), <- (SF2Prim_Prim2SF (y * x)).
  rewrite !FloatAxioms.mul_spec. unfold SF64mul. by rewrite SFmul_comm.
Qed.

End FloatOrder.

(** ** The geometry kernel in exact arithmetic *)

Section Exact.
#[local] Open Scope R_scope.

#[local] Ltac reals :=
  cbn [fadd fsub fmul fdiv fopp fsqrt fabs fltb fleb of_int MaxFloat64 exact
       PX PY PZ VX VY VZ L0 L1 Center Radius] in *.

(** Squared distance. *)
Lemma Module_sq (v : Vector R) :
  Module v * Module v = VX v * VX v + VY v * VY v + VZ v * VZ v.
Proof.
  unfold Module. reals. apply sqrt_sqrt. nra.
Qed.

Lemma Module_nonneg (v : Vector R) : 0 <= Module v.
Proof. unfold Module. reals. apply sqrt_pos. Qed.

Lemma quad_a_pos (l : Line R) : L0 l <> L1 l -> 0 < quad_a l.
Proof.
  destruct l as [[x0 y0 z0] [x1 y1 z1]]. unfold quad_a. reals. intros Hne.
  assert (Hsq : forall u w : R, u <> w -> 0 < (u - w) * (u - w)).
  { intros u w Hu. assert (Huw : u - w <> 0) by lra.
    generalize dependent (u - w). intros a Ha.
    destruct (Rtotal_order a 0) as [?|[?|?]]; [nra|done|nra]. }
  assert (Hsq0 : forall u w : R, 0 <= (u - w) * (u - w)).
  { intros u w. generalize (u - w). intros a. nra. }
  pose proof (Hsq0 x1 x0). pose proof (Hsq0 y1 y0). pose proof (Hsq0 z1 z0).
  destruct (Req_dec x1 x0) as [Hx|Hx]; [|specialize (Hsq _ _ Hx); lra].
  destruct (Req_dec y1 y0) as [Hy|Hy]; [|specialize (Hsq _ _ Hy); lra].
  destruct (Req_dec z1 z0) as [Hz|Hz]; [|specialize (Hsq _ _ Hz); lra].
  subst. done.
Qed.

(** The squared distance from the point at [t] to the center, less the
    squared radius, is the quadratic in [t]. *)
Lemma sphere_quadratic (s : geom.Sphere R) (l : Line R) (t : R) :
  Module (MakeVector (point_at l t) (Center s)) *
  Module (MakeVector (point_at l t) (Center s)) - Radius s * Radius s
  = quad_a l * t * t + quad_b s l * t + quad_c s l.
Proof.
  rewrite Module_sq.
  destruct s as [[cx cy cz] r], l as [[x0 y0 z0] [x1 y1 z1]].
  unfold quad_a, quad_b, quad_c, point_at, MakeVector. reals. ring.
Qed.

Lemma on_sphere_iff_root (s : geom.Sphere R) (l : Line R) (t : R) :
  0 <= Radius s ->
  Module (MakeVector (point_at l t) (Center s)) = Radius s <->
  quad_a l * t * t + quad_b s l * t + quad_c s l = 0.
Proof.
  intros Hr. rewrite <- sphere_quadratic.
  pose proof (Module_nonneg (MakeVector (point_at l t) (Center s))) as Hm.
  split; [intros ->; ring|]. intros Hsq. nra.
Qed.



Lemma quadratic_no_root (a b c t : R) :
  0 < a -> b * b - 4 * a * c < 0 -> a * t * t + b * t + c <> 0.
Proof.
  intros Ha Hd Hroot.
  assert (Hu : 0 <= (2 * a * t + b) * (2 * a * t + b)).
  { generalize (2 * a * t + b). intros u. nra. }
  replace ((2 * a * t + b) * (2 * a * t + b))
    with (4 * a * (a * t * t + b * t + c) + (b * b - 4 * a * c)) in Hu by ring.
  rewrite Hroot in Hu. lra.
Qed.

Lemma quadratic_near_root (a b c sd : R) :
  0 < a -> 0 <= sd -> sd * sd = b * b - 4 * a * c ->
  let t := (- b - sd) / (2 * a) in
  a * t * t + b * t + c = 0 /\
  forall t', a * t' * t' + b * t' + c = 0 -> t <= t'.
Proof.
  intros Ha Hsd Hsq t.
  assert (Hc : c = (b * b - sd * sd) / (4 * a)) by (rewrite Hsq; field; lra).
  split.
  - rewrite Hc. unfold t. field. lra.
  - intros t' Hroot.
    assert (Hu : (2 * a * t' + b) * (2 * a * t' + b) = sd * sd).
    { replace ((2 * a * t' + b) * (2 * a * t' + b))
        with (4 * a * (a * t' * t' + b * t' + c) + (b * b - 4 * a * c)) by ring.
      rewrite Hroot, Hsq. ring. }
    assert (Hlow : - sd <= 2 * a * t' + b).
    { revert Hu. generalize (2 * a * t' + b). intros u Hu.
      destruct (Rle_dec (- sd) u) as [|Hn]; [assumption|].
      apply Rnot_le_lt in Hn. nra. }
    assert (Ht : 2 * a * t = - b - sd) by (unfold t; field; lra).
    assert (Hle : 2 * a * t <= 2 * a * t') by lra.
    apply Rmult_le_reg_l with (r := 2 * a); lra.
Qed.

Lemma exact_intersection (s : geom.Sphere R) (l : Line R) :
  L0 l <> L1 l -> 0 <= Radius s ->
  match SphereLineIntersection s l with
  | (p, t, ok) =>
    (ok = true ->
       p = point_at l t /\
       Module (MakeVector p (Center s)) = Radius s /\
       forall t', Module (MakeVector (point_at l t') (Center s)) = Radius s ->
                  t <= t') /\
    (ok = false ->
       forall t', Module (MakeVector (point_at l t') (Center s)) <> Radius s)
  end.
Proof.
  intros Hne Hr. pose proof (quad_a_pos l Hne) as Ha.
  unfold SphereLineIntersection. reals.
  destruct (Rlt_dec (discriminant s l) 0) as [Hd|Hd].
  - split; [done|]. intros _ t' Hon.
    apply on_sphere_iff_root in Hon; [|done]. revert Hon.
    apply quadratic_no_root; [done|]. exact Hd.
  - split; [|done]. intros _. apply Rnot_lt_le in Hd.
    destruct (quadratic_near_root (quad_a l) (quad_b s l) (quad_c s l)
                (sqrt (discriminant s l)) Ha (sqrt_pos _) (sqrt_sqrt _ Hd))
      as [Hroot Hnear].
    split; [done|]. split.
    + by apply on_sphere_iff_root.
    + intros t' Hon. apply Hnear. by apply on_sphere_iff_root.
Qed.

(** The normal in exact arithmetic. *)
Lemma exact_normal (s : geom.Sphere R) (p : Point R) :
  p <> Center s ->
  Module (NormalVectorAt s p) = 1 /\
  0 < Module (MakeVector p (Center s)) /\
  NormalVectorAt s p
  = mkVector ((PX p - PX (Center s)) / Module (MakeVector p (Center s)))
             ((PY p - PY (Center s)) / Module (MakeVector p (Center s)))
             ((PZ p - PZ (Center s)) / Module (MakeVector p (Center s))) /\
  0 < DotProduct (NormalVectorAt s p) (MakeVector p (Center s)) /\
  DotProduct (NormalVectorAt s p) (MakeVector (Center s) p) < 0.
Proof.
  intros Hne.
  assert (Hpos : 0 < Module (MakeVector p (Center s))).
  { pose proof (quad_a_pos (mkLine (Center s) p)) as Ha.
    pose proof (Module_sq (MakeVector p (Center s))) as Hsq.
    pose proof (Module_nonneg (MakeVector p (Center s))) as Hm.
    unfold quad_a in Ha. unfold MakeVector in Hsq at 3 4 5 6 7 8. reals.
    rewrite <- Hsq in Ha.
    destruct (Req_dec (Module (MakeVector p (Center s))) 0) as [Hz|Hz]; [|lra].
    rewrite Hz in Ha. specialize (Ha (fun e => Hne (eq_sym e))). lra. }
  pose proof (Module_sq (MakeVector p (Center s))) as Hsq.
  set (m := Module (MakeVector p (Center s))) in *.
  unfold NormalVectorAt, UnitVector. fold m.
  destruct s as [[cx cy cz] r], p as [x y z]. unfold MakeVector in *. reals.
  assert (Hm : m <> 0) by lra.
  repeat split; [|done| |].
  - unfold Module. reals.
    replace ((x - cx) / m * ((x - cx) / m) + (y - cy) / m * ((y - cy) / m)
             + (z - cz) / m * ((z - cz) / m))
      with (((x - cx) * (x - cx) + (y - cy) * (y - cy) + (z - cz) * (z - cz))
            / (m * m)) by (field; done).
    rewrite <- Hsq. replace (m * m / (m * m)) with 1 by (field; done).
    apply sqrt_1.
  - unfold DotProduct. reals.
    replace ((x - cx) / m * (x - cx) + (y - cy) / m * (y - cy)
             + (z - cz) / m * (z - cz))
      with (m * m / m) by (rewrite Hsq; field; done).
    replace (m * m / m) with m by (field; done). done.
  - unfold DotProduct. reals.
    replace ((x - cx) / m * (cx - x) + (y - cy) / m * (cy - y)
             + (z - cz) / m * (cz - z))
      with (- (m * m / m)) by (rewrite Hsq; field; done).
    replace (m * m / m) with m by (field; done). lra.
Qed.

(** In exact arithmetic a number is within every epsilon of itself. *)
Lemma exact_FloatsEqual (x y eps : R) :
  x = y -> 0 < eps -> FloatsEqual x y eps = true.
Proof.
  intros -> Heps. unfold FloatsEqual. reals.
  replace (y - y) with 0 by ring. rewrite Rabs_R0.
  by destruct (Rlt_dec 0 eps).
Qed.

End Exact.

(** C1 (as amended).  For every sphere and line, over any scalars and so
    in binary64: [ok] is false exactly when the computed discriminant is
    negative, and then the point is [Origin] and [t] is [MaxFloat64];
    otherwise [ok] is true, [t] is (-b - sqrt d) / (2a) and the point is
    the point of the line at [t].  In binary64 a discriminant that is at
    least 0 gives [ok], and [ok] is given also when the computed [t] is
    negative.  In exact arithmetic, for a line with distinct endpoints and
    a radius that is not negative: with [ok] the point is at distance
    [Radius] from the center (within every epsilon) and no point of the
    line on the sphere has a smaller parameter (the nearer root); without
    [ok] no point of the line is on the sphere. *)
Theorem SphereLineIntersection_nearer_root :
  (forall (F : Type) (SF : Scalar F) (s : geom.Sphere F) (l : Line F),
     match SphereLineIntersection s l with
     | (p, t, ok) =>
       (ok = false <-> (discriminant s l <? #0)%sc = true) /\
       (ok = false -> p = Origin /\ t = MaxFloat64) /\
       (ok = true ->
          t = ((- quad_b s l - fsqrt (discriminant s l))
               / (#2 * quad_a l))%sc /\
          p = point_at l t)
     end) /\
  (forall (s : geom.Sphere float) (l : Line float),
     (#0 <=? discriminant s l)%sc = true ->
     (SphereLineIntersection s l).2 = true) /\
  SphereLineIntersection (inputs.sphere 0 0 (-5) 1) (inputs.line 0 0 0 0 0 10)
  = (inputs.point 0 0 (-6), (-0.6)%float, true) /\
  (forall (s : geom.Sphere R) (l : Line R),
     L0 l <> L1 l -> (0 <= Radius s)%R ->
     match SphereLineIntersection s l with
     | (p, t, ok) =>
       (ok = true ->
          p = point_at l t /\
          Module (MakeVector p (Center s)) = Radius s /\
          (forall eps, (0 < eps)%R ->
             FloatsEqual (Module (MakeVector p (Center s))) (Radius s) eps
             = true) /\
          forall t',
            Module (MakeVector (point_at l t') (Center s)) = Radius s ->
            (t <= t')%R) /\
       (ok = false ->
          forall t',
            Module (MakeVector (point_at l t') (Center s)) <> Radius s)
     end).
Proof.
  split; [|split; [|split]].
  - intros F SF s l. unfold SphereLineIntersection.
    destruct (discriminant s l <? #0)%sc; repeat split; done.
  - intros s l Hd. unfold SphereLineIntersection.
    destruct (discriminant s l <? #0)%sc eqn:Hlt; [|done].
    apply float_ltb_not_leb in Hlt. congruence.
  - vm_compute. reflexivity.
  - intros s l Hne Hr. pose proof (exact_intersection s l Hne Hr) as Hex.
    destruct (SphereLineIntersection s l) as [[p t] ok].
    destruct Hex as [Hok Hno]. split; [|exact Hno].
    intros Htrue. destruct (Hok Htrue) as (Hp & Hon & Hnear).
    repeat split; [done..| |done]. intros eps Heps.
    by apply exact_FloatsEqual.
Qed.

(** C1 at the first line of the package's test table, read in exact
    arithmetic. *)
Lemma SphereLineIntersection_nearer_root_witness :
  match SphereLineIntersection (inputs.exact_sphere 7 5 0 2)
                               (inputs.exact_line 0 0 0 4 2 0) with
  | (p, t, ok) =>
      ok = true -> Module (MakeVector p (inputs.exact_point 7 5 0)) = 2%R
  end.
Proof.
  pose proof (proj2 (proj2 (proj2 SphereLineIntersection_nearer_root))
                (inputs.exact_sphere 7 5 0 2)
                (inputs.exact_line 0 0 0 4 2 0)) as Hex.
  assert (Hne : L0 (inputs.exact_line 0 0 0 4 2 0)
                <> L1 (inputs.exact_line 0 0 0 4 2 0)).
  { intros Heq. apply (f_equal PX) in Heq. simpl in Heq. lra. }
  specialize (Hex Hne ltac:(simpl; lra)).
  destruct (SphereLineIntersection _ _) as [[p t] ok].
  intros Hok. by apply Hex.
Defined.

(** C1, the claim as stated fails in binary64.  On a line whose endpoints
    are equal the discriminant is 0, [ok] is true, and [t] and the point
    are not numbers; on the line from the origin to (1, 0, 0) and the
    sphere of radius 1 around (1e8, 0, 0) the point returned is the
    center.  In neither case is the distance from the point to the center
    within 0.01 of the radius. *)
Lemma SphereLineIntersection_point_off_sphere :
  (let s := inputs.sphere 7 5 0 2 in
   let l := inputs.line 1 1 1 1 1 1 in
   discriminant s l = 0%float /\
   SphereLineIntersection s l = (mkPoint nan nan nan, nan, true) /\
   FloatsEqual (Module (MakeVector (SphereLineIntersection s l).1.1 (Center s)))
               (Radius s) 0.01%float = false) /\
  (let s := inputs.sphere 1e8 0 0 1 in
   let l := inputs.line 0 0 0 1 0 0 in
   SphereLineIntersection s l = (inputs.point 1e8 0 0, 1e8%float, true) /\
   FloatsEqual (Module (MakeVector (SphereLineIntersection s l).1.1 (Center s)))
               (Radius s) 0.01%float = false).
Proof. vm_compute. done. Qed.

(** C4 (as amended).  [NormalVectorAt] is the vector from the center to
    the point, divided by its length.  In exact arithmetic, for a point
    that is not the center, it has length 1, its components are those of
    point minus center over the distance, and it points away from the
    center: its product with the vector from the center to the point is
    positive, with the vector from the point to the center negative. *)
Theorem NormalVectorAt_unit_outward :
  (forall (F : Type) (SF : Scalar F) (s : geom.Sphere F) (p : Point F),
     NormalVectorAt s p = UnitVector (MakeVector p (Center s))) /\
  (forall (s : geom.Sphere R) (p : Point R),
     p <> Center s ->
     Module (NormalVectorAt s p) = 1%R /\
     (forall eps, (0 < eps)%R ->
        FloatsEqual (Module (NormalVectorAt s p)) 1%R eps = true) /\
     (0 < Module (MakeVector p (Center s)))%R /\
     NormalVectorAt s p
     = mkVector
         ((PX p - PX (Center s)) / Module (MakeVector p (Center s)))%R
         ((PY p - PY (Center s)) / Module (MakeVector p (Center s)))%R
         ((PZ p - PZ (Center s)) / Module (MakeVector p (Center s)))%R /\
     (0 < DotProduct (NormalVectorAt s p) (MakeVector p (Center s)))%R /\
     (DotProduct (NormalVectorAt s p) (MakeVector (Center s) p) < 0)%R).
Proof.
  split; [done|]. intros s p Hne.
  destruct (exact_normal s p Hne) as (Hunit & Hrest).
  split; [exact Hunit|]. split; [|exact Hrest].
  intros eps Heps. by apply exact_FloatsEqual.
Qed.

(** C4 at the input of the package's test, read in exact arithmetic. *)
Lemma NormalVectorAt_unit_outward_witness :
  Module (NormalVectorAt (inputs.exact_sphere 1 1 1 4)
                         (inputs.exact_point 5 1 1)) = 1%R.
Proof.
  apply (proj2 NormalVectorAt_unit_outward
           (inputs.exact_sphere 1 1 1 4) (inputs.exact_point 5 1 1)).
  intros Heq. apply (f_equal PX) in Heq. simpl in Heq. lra.
Defined.

(** C4, the claim as stated fails.  At the input of the package's test
    (center (1, 1, 1), point (5, 1, 1)) the normal is (1, 0, 0), as the
    test expects: the direction from the center to the point.  The unit
    vector from the point toward the center is (-1, 0, 0).  And in
    binary64 the length is not always 1: for the point (1e200, 0, 0) and
    the center at the origin the squares overflow and the normal is the
    zero vector. *)
Lemma NormalVectorAt_not_inward :
  (let s := inputs.sphere 1 1 1 4 in
   let p := inputs.point 5 1 1 in
   NormalVectorAt s p = inputs.vector 1 0 0 /\
   UnitVector (MakeVector (Center s) p) = inputs.vector (-1) 0 0 /\
   VectorsEqual (NormalVectorAt s p) (UnitVector (MakeVector (Center s) p))
                0.01%float = false) /\
  (let s := inputs.sphere 0 0 0 4 in
   let p := inputs.point 1e200 0 0 in
   NormalVectorAt s p = inputs.vector 0 0 0 /\
   FloatsEqual (Module (NormalVectorAt s p)) 1%float 0.01%float = false).
Proof. vm_compute. done. Qed.

(** The product of two vectors does not depend on their order, in
    binary64 as in exact arithmetic. *)
Lemma DotProduct_symmetric :
  (forall a b : Vector float, DotProduct a b = DotProduct b a) /\
  (forall a b : Vector R, DotProduct a b = DotProduct b a).
Proof.
  split; intros a b; unfold DotProduct.
  - by rewrite (float_mul_comm (VX a)), (float_mul_comm (VY a)),
      (float_mul_comm (VZ a)).
  - simpl. ring.
Qed.

(** ** Validation *)

Section Validation.

Lemma Sphere_Validate_None (o : raytracer.Sphere) :
  Sphere_Validate o = None <-> object_passes o.
Proof.
  unfold Sphere_Validate, geom_Sphere_Validate, object_passes.
  destruct (Sphere_invalid (Sphere_ o)); [by split; [|intros []]|].
  destruct (Color_Validate (Color_ o)); by split; [|intros []].
Qed.

Lemma Validate_objects_None (os : list raytracer.Sphere) :
  Validate_objects os = None <-> Forall object_passes os.
Proof.
  induction os as [|o os IH]; simpl; [by split|].
  rewrite Forall_cons, <- IH, <- Sphere_Validate_None.
  destruct (Sphere_Validate o); by split; [|intros []].
Qed.

(** The loop stops at the first object that fails, with its error. *)
Lemma Validate_objects_first (pre post : list raytracer.Sphere) o err :
  Forall object_passes pre -> Sphere_Validate o = Some err ->
  Validate_objects (pre ++ o :: post)
  = Some (ErrWrap "invalid scene object" err).
Proof.
  intros Hpre Ho. induction Hpre as [|o' pre Ho' _ IH]; simpl.
  - by rewrite Ho.
  - apply Sphere_Validate_None in Ho'. by rewrite Ho'.
Qed.

Lemma Validate_None (s : Scene) :
  Validate s = None <->
  Forall object_passes (Objects s) /\
  Color_Validate (Bg s) = None /\
  (Kd s <? #0)%sc = false /\ (Kd s >? #1)%sc = false /\
  Plane2d_invalid (Near (ViewFrustum s)) = false /\
  Plane2d_invalid (Far (ViewFrustum s)) = false.
Proof.
  unfold Validate, Frustum_Validate, Plane2d_Validate.
  rewrite <- Validate_objects_None.
  destruct (Validate_objects (Objects s)); [by split; [|intros []]|].
  destruct (Color_Validate (Bg s)); [by split; [|intros (_ & ? & _)]|].
  destruct (Kd s <? #0)%sc; [by split; [|intros (_ & _ & ? & _)]|].
  destruct (#1 <? Kd s)%sc; [by split; [|intros (_ & _ & _ & ? & _)]|].
  cbn [orb].
  destruct (Plane2d_invalid (Near (ViewFrustum s)));
    [by split; [|intros (_ & _ & _ & _ & ? & _)]|].
  destruct (Plane2d_invalid (Far (ViewFrustum s)));
    [by split; [|intros (_ & _ & _ & _ & _ & ?)]|].
  by split.
Qed.

Lemma Color_Validate_spec (c : Color) :
  Color_Validate c = None <-> spec_color_ok c = true.
Proof.
  unfold Color_Validate, spec_color_ok, spec_channel_ok, isColorChannelValid.
  by destruct (_ && _ && _)%bool.
Qed.

Lemma spec_scene_ok_Validate (s : Scene) :
  spec_scene_ok s = true -> Validate s = None.
Proof.
  unfold spec_scene_ok. rewrite !andb_true_iff.
  intros ((((Hobjs & Hbg) & Hkd) & Hnear) & Hfar).
  apply Validate_None. repeat split.
  - apply Forall_forall. intros o Ho.
    rewrite forallb_forall in Hobjs. apply list_elem_of_In in Ho.
    specialize (Hobjs o Ho). unfold spec_object_ok in Hobjs.
    apply andb_true_iff in Hobjs as [Hr Hc]. split.
    + unfold Sphere_invalid, spec_sphere_ok in *.
      destruct (Radius (Sphere_ o) <? #0)%sc eqn:Hlt; [|done].
      apply float_ltb_not_leb in Hlt. congruence.
    + by apply Color_Validate_spec.
  - by apply Color_Validate_spec.
  - unfold spec_kd_ok in Hkd. apply andb_true_iff in Hkd as [H0 H1].
    destruct (Kd s <? #0)%sc eqn:Hlt; [|done].
    apply float_ltb_not_leb in Hlt. congruence.
  - unfold spec_kd_ok in Hkd. apply andb_true_iff in Hkd as [H0 H1].
    destruct (#1 <? Kd s)%sc eqn:Hlt; [|done].
    apply float_ltb_not_leb in Hlt. congruence.
  - unfold spec_plane_ok, Plane2d_invalid in *.
    apply andb_true_iff in Hnear as [Hx Hy].
    apply float_ltb_not_leb in Hx, Hy. by rewrite Hx, Hy.
  - unfold spec_plane_ok, Plane2d_invalid in *.
    apply andb_true_iff in Hfar as [Hx Hy].
    apply float_ltb_not_leb in Hx, Hy. by rewrite Hx, Hy.
Qed.

Lemma plane_passes_spec (p : Plane2d float) :
  plane_nan_free p = true -> Plane2d_invalid p = false ->
  spec_plane_ok p = true.
Proof.
  unfold plane_nan_free, Plane2d_invalid, spec_plane_ok.
  rewrite !andb_true_iff, !negb_true_iff, orb_false_iff.
  intros (((Htx & Hbx) & Hty) & Hby) [Hx Hy]. split.
  - by apply float_not_leb_ltb.
  - by apply float_not_leb_ltb.
Qed.

Lemma nan_free_Validate_spec (s : Scene) :
  nan_free s = true -> Validate s = None -> spec_scene_ok s = true.
Proof.
  unfold nan_free, spec_scene_ok. rewrite !andb_true_iff, !negb_true_iff.
  intros (((Hr & Hk) & Hn) & Hf).
  intros (Hobjs & Hbg & Hk0 & Hk1 & Hnear & Hfar)%Validate_None.
  assert (H1 : is_nan 1%float = false) by reflexivity.
  assert (H0 : is_nan 0%float = false) by reflexivity.
  repeat split.
  - apply forallb_forall. intros o Ho.
    rewrite forallb_forall in Hr. specialize (Hr o Ho).
    apply negb_true_iff in Hr.
    rewrite Forall_forall in Hobjs. apply list_elem_of_In in Ho.
    destruct (Hobjs o Ho) as [Hrad Hcol].
    unfold spec_object_ok. apply andb_true_iff. split.
    + by apply float_not_ltb_leb.
    + by apply Color_Validate_spec.
  - by apply Color_Validate_spec.
  - unfold spec_kd_ok. apply andb_true_iff.
    split; by apply float_not_ltb_leb.
  - by apply plane_passes_spec.
  - by apply plane_passes_spec.
Qed.

(** The order of the checks: the error is that of the first check that
    fails. *)
Lemma Validate_order (s : Scene) :
  (forall pre o post,
     Objects s = pre ++ o :: post -> Forall object_passes pre ->
     (Sphere_invalid (Sphere_ o) = true ->
      Validate s = Some (ErrWrap "invalid scene object" ErrNegativeRadius)) /\
     (forall err,
        Sphere_invalid (Sphere_ o) = false ->
        Color_Validate (Color_ o) = Some err ->
        Validate s = Some (ErrWrap "invalid scene object"
                             (ErrWrap "invalid sphere" err)))) /\
  (Forall object_passes (Objects s) ->
   (forall err,
      Color_Validate (Bg s) = Some err ->
      Validate s = Some (ErrWrap "invalid scene background" err)) /\
   (Color_Validate (Bg s) = None ->
    ((Kd s <? #0)%sc || (Kd s >? #1)%sc = true ->
     Validate s = Some (ErrDiffuse (Kd s))) /\
    ((Kd s <? #0)%sc || (Kd s >? #1)%sc = false ->
     (Plane2d_invalid (Near (ViewFrustum s)) = true ->
      Validate s = Some (ErrWrap "invalid scene frustum"
                           (ErrWrap "invalid near frustum plane"
                              (ErrPlane (Near (ViewFrustum s)))))) /\
     (Plane2d_invalid (Near (ViewFrustum s)) = false ->
      Plane2d_invalid (Far (ViewFrustum s)) = true ->
      Validate s = Some (ErrWrap "invalid scene frustum"
                           (ErrWrap "invalid far frustum plane"
                              (ErrPlane (Far (ViewFrustum s))))))))).
Proof.
  split.
  - intros pre o post Hobjs Hpre. unfold Validate. rewrite Hobjs. split.
    + intros Hrad.
      rewrite (Validate_objects_first pre post o ErrNegativeRadius); [done..|].
      unfold Sphere_Validate, geom_Sphere_Validate. by rewrite Hrad.
    + intros err Hrad Hcol.
      rewrite (Validate_objects_first pre post o (ErrWrap "invalid sphere" err));
        [done..|].
      unfold Sphere_Validate, geom_Sphere_Validate. by rewrite Hrad, Hcol.
  - intros Hobjs%Validate_objects_None. unfold Validate. rewrite Hobjs. split.
    + intros err Hbg. by rewrite Hbg.
    + intros Hbg. rewrite Hbg. split; [by intros ->|]. intros ->.
      unfold Frustum_Validate, Plane2d_Validate. split.
      * by intros ->.
      * by intros -> ->.
Qed.

(** [Render] returns the error of the validation, and an image only for
    a scene that passes. *)
Lemma Render_Validate (s : Scene) (nstripes : Z) :
  (forall err, Validate s = Some err <-> Render s nstripes = inl err) /\
  (Validate s = None <-> exists img, Render s nstripes = inr img) /\
  (forall err r,
     Validate s = Some err -> Render_schedule s nstripes r -> r = inl err).
Proof.
  unfold Render. repeat split.
  - by intros ->.
  - destruct (Validate s); [by intros [= ->]|done].
  - intros ->. by eexists.
  - destruct (Validate s); [by intros [? ?]|done].
  - intros err r Herr Hr. destruct Hr as [err' Herr'|ws Hnone _]; congruence.
Qed.

End Validation.

(** The validation as the code performs it.  It accepts every scene
    whose sub-entities satisfy their invariants, and a scene without NaN
    in its radii, its diffuse coefficient and its plane corners is
    accepted only if they do; in general it accepts exactly when no check
    fails (radius < 0; a channel outside [0, 1]; kd < 0 or kd > 1;
    tl.x >= br.x or tl.y <= br.y).  The checks run over the objects in
    sequence order (sphere, then color), then the background color, the
    diffuse coefficient, the near plane and the far plane, and the error
    is that of the first check that fails, wrapped in the names of the
    sub-entities it belongs to.  [Render] returns that error and no image.
    A sphere of radius -1, a channel of 1.5, a diffuse coefficient of -0.1
    and a plane with tl.x equal to br.x are rejected. *)
Theorem Validate_stops_at_first_violation (s : Scene) :
  (spec_scene_ok s = true -> Validate s = None) /\
  (nan_free s = true -> (Validate s = None <-> spec_scene_ok s = true)) /\
  (Validate s = None <->
   Forall object_passes (Objects s) /\
   Color_Validate (Bg s) = None /\
   (Kd s <? #0)%sc = false /\ (Kd s >? #1)%sc = false /\
   Plane2d_invalid (Near (ViewFrustum s)) = false /\
   Plane2d_invalid (Far (ViewFrustum s)) = false) /\
  (forall pre o post,
     Objects s = pre ++ o :: post -> Forall object_passes pre ->
     (Sphere_invalid (Sphere_ o) = true ->
      Validate s = Some (ErrWrap "invalid scene object" ErrNegativeRadius)) /\
     (forall err,
        Sphere_invalid (Sphere_ o) = false ->
        Color_Validate (Color_ o) = Some err ->
        Validate s = Some (ErrWrap "invalid scene object"
                             (ErrWrap "invalid sphere" err)))) /\
  (Forall object_passes (Objects s) ->
   (forall err,
      Color_Validate (Bg s) = Some err ->
      Validate s = Some (ErrWrap "invalid scene background" err)) /\
   (Color_Validate (Bg s) = None ->
    ((Kd s <? #0)%sc || (Kd s >? #1)%sc = true ->
     Validate s = Some (ErrDiffuse (Kd s))) /\
    ((Kd s <? #0)%sc || (Kd s >? #1)%sc = false ->
     (Plane2d_invalid (Near (ViewFrustum s)) = true ->
      Validate s = Some (ErrWrap "invalid scene frustum"
                           (ErrWrap "invalid near frustum plane"
                              (ErrPlane (Near (ViewFrustum s)))))) /\
     (Plane2d_invalid (Near (ViewFrustum s)) = false ->
      Plane2d_invalid (Far (ViewFrustum s)) = true ->
      Validate s = Some (ErrWrap "invalid scene frustum"
                           (ErrWrap "invalid far frustum plane"
                              (ErrPlane (Far (ViewFrustum s))))))))) /\
  (forall nstripes,
     (forall err, Validate s = Some err <-> Render s nstripes = inl err) /\
     (Validate s = None <-> exists img, Render s nstripes = inr img) /\
     (forall err r,
        Validate s = Some err -> Render_schedule s nstripes r ->
        r = inl err)) /\
  (forall o, o ∈ Objects s -> Radius (Sphere_ o) = (-1)%float ->
             is_Some (Validate s)) /\
  (forall c,
     c = Bg s \/ (exists o, o ∈ Objects s /\ c = Color_ o) ->
     CR c = 1.5%float \/ CG c = 1.5%float \/ CB c = 1.5%float ->
     is_Some (Validate s)) /\
  (Kd s = (-0.1)%float -> is_Some (Validate s)) /\
  (forall p,
     p = Near (ViewFrustum s) \/ p = Far (ViewFrustum s) ->
     PrimFloat.eqb (P2X (Tl p)) (P2X (Br p)) = true ->
     is_Some (Validate s)).
Proof.
  assert (Hrej : forall P : Prop, (Validate s = None -> P -> False) ->
                                  P -> is_Some (Validate s)).
  { intros P HP HPp. destruct (Validate s) eqn:Hv; [by eexists|].
    by destruct (HP eq_refl HPp). }
  split; [apply spec_scene_ok_Validate|].
  split; [intros Hnan; split;
          [by apply nan_free_Validate_spec|apply spec_scene_ok_Validate]|].
  split; [apply Validate_None|].
  split; [apply Validate_order|].
  split; [apply Validate_order|].
  split; [intros nstripes; apply Render_Validate|].
  split; [|split; [|split]].
  - intros o Ho Hrad. revert Hrad. apply Hrej.
    intros (Hobjs & _)%Validate_None Hrad.
    rewrite Forall_forall in Hobjs. destruct (Hobjs o Ho) as [Hr _].
    unfold Sphere_invalid in Hr. rewrite Hrad in Hr. vm_compute in Hr. done.
  - intros c Hc Hch.
    assert (Hbad : Color_Validate c <> None).
    { assert (Hv : isColorChannelValid 1.5 = false) by reflexivity.
      unfold Color_Validate.
      destruct Hch as [Hch | [Hch | Hch]]; rewrite Hch, Hv.
      - done.
      - by rewrite andb_false_r.
      - by rewrite andb_false_r. }
    revert Hc. apply Hrej.
    intros (Hobjs & Hbg & _)%Validate_None [-> | (o & Ho & ->)]; [done|].
    rewrite Forall_forall in Hobjs. by destruct (Hobjs o Ho) as [_ Hc].
  - apply Hrej. intros (_ & _ & Hk & _)%Validate_None Hkd.
    rewrite Hkd in Hk. vm_compute in Hk. done.
  - intros p Hp Heq. revert Hp. apply Hrej.
    intros (_ & _ & _ & _ & Hnear & Hfar)%Validate_None Hp.
    apply float_eqb_geb in Heq.
    destruct Hp as [-> | ->]; unfold Plane2d_invalid in *.
    + by rewrite Heq in Hnear.
    + by rewrite Heq in Hfar.
Qed.

(** At [scene_two_spheres], where every invariant holds, the scene is
    accepted. *)
Lemma Validate_stops_at_first_violation_witness :
  Validate inputs.scene_two_spheres = None.
Proof.
  apply (proj1 (Validate_stops_at_first_violation inputs.scene_two_spheres)).
  vm_compute. reflexivity.
Defined.

(** C7, evaluated on [scene_nan_kd].  The diffuse coefficient of the
    scene is not in [0, 1] (it is not a number): the invariant of the
    scene is violated, and [Validate] returns no error and [Render] an
    image.  So does the check of a sphere whose radius is not a number,
    while a color with such a channel is rejected. *)
Theorem Validate_accepts_nan :
  spec_kd_ok (Kd inputs.scene_nan_kd) = false /\
  spec_scene_ok inputs.scene_nan_kd = false /\
  Validate inputs.scene_nan_kd = None /\
  (exists img, Render inputs.scene_nan_kd 1 = inr img) /\
  spec_sphere_ok (inputs.sphere 0 0 0 nan) = false /\
  geom_Sphere_Validate (inputs.sphere 0 0 0 nan) = None /\
  Color_Validate (mkColor nan 0 0) = Some (ErrColorRange nan 0 0).
Proof.
  vm_compute. repeat split; try done. by eexists.
Qed.

(** ** The nearest-hit search *)

Section CastRay.
Variable ray : Line float.

#[local] Ltac this_object Hhit H :=
  unfold intersects in H; rewrite Hhit in H; inversion H; subst; clear H.

(** The loop either leaves its state alone, and then no object of the
    rest was intersected below the bound [tmin], or ends on an object of
    the rest: one below [tmin], with no intersected object below it and no
    earlier intersected object at or below it. *)
Lemma castRay_loop_spec (os : list raytracer.Sphere) :
  forall (i : Z) (pmin : Point float) (tmin : float) (imin : Z),
  match castRay_loop ray os i (pmin, tmin, imin) with
  | (p', t', i') =>
    ((p', t', i') = (pmin, tmin, imin) /\
     forall o p t, o ∈ os -> intersects ray o p t -> (t <? tmin)%sc = false)
    \/
    (exists (k : nat) o,
       os !! k = Some o /\ i' = i + Z.of_nat k /\
       intersects ray o p' t' /\ (t' <? tmin)%sc = true /\
       (forall (j : nat) o2 p2 t2,
          os !! j = Some o2 -> intersects ray o2 p2 t2 ->
          (t2 <? t')%sc = false) /\
       (forall (j : nat) o2 p2 t2,
          (j < k)%nat -> os !! j = Some o2 -> intersects ray o2 p2 t2 ->
          (t2 <=? t')%sc = false))
  end.
Proof.
  induction os as [|o os IH]; intros i pmin tmin imin.
  - simpl. left. split; [done|]. intros o p t Ho. by apply elem_of_nil in Ho.
  - cbn [castRay_loop].
    destruct (SphereLineIntersection (Sphere_ o) ray) as [[p t] ok] eqn:Hhit.
    destruct ok; [destruct (t <? tmin)%sc eqn:Hlt|].
    + (* the object is nearer: it becomes the candidate *)
      specialize (IH (i + 1) p t i).
      destruct (castRay_loop ray os (i + 1) (p, t, i)) as [[p' t'] i'].
      right.
      destruct IH as [[Heq Hrest]|(k & o' & Hk & Hi & Hint & Hlt' & Hmin & Hfst)].
      * inversion Heq; subst. exists 0%nat, o. repeat split; [lia|done|done|..].
        -- intros [|j] o2 p2 t2 Hj Hint2; simpl in Hj.
           ++ inversion Hj; subst. this_object Hhit Hint2.
              apply float_ltb_irrefl.
           ++ eapply Hrest; [|done]. by eapply list_elem_of_lookup_2.
        -- intros j o2 p2 t2 Hj. lia.
      * exists (S k), o'. repeat split; [done|lia|done|..].
        -- by eapply float_ltb_trans.
        -- intros [|j] o2 p2 t2 Hj Hint2; simpl in Hj; [|by eapply Hmin].
           inversion Hj; subst. this_object Hhit Hint2.
           by apply float_not_leb_not_ltb, float_ltb_not_leb.
        -- intros [|j] o2 p2 t2 Hjk Hj Hint2; simpl in Hj.
           ++ inversion Hj; subst. this_object Hhit Hint2.
              by apply float_ltb_not_leb.
           ++ eapply (Hfst j); [lia|done|done].
    + (* intersected, but not nearer than the candidate *)
      specialize (IH (i + 1) pmin tmin imin).
      destruct (castRay_loop ray os (i + 1) (pmin, tmin, imin)) as [[p' t'] i'].
      destruct IH as [[Heq Hrest]|(k & o' & Hk & Hi & Hint & Hlt' & Hmin & Hfst)].
      * left. split; [done|]. intros o2 p2 t2 Ho2 Hint2.
        apply elem_of_cons in Ho2 as [->|Ho2]; [|by eapply Hrest].
        by this_object Hhit Hint2.
      * right. exists (S k), o'.
        assert (Hle : (t <=? t')%sc = false).
        { destruct (t <=? t')%sc eqn:Hle; [|done].
          pose proof (float_leb_ltb_trans _ _ _ Hle Hlt'). congruence. }
        repeat split; [done|lia|done|done|..].
        -- intros [|j] o2 p2 t2 Hj Hint2; simpl in Hj; [|by eapply Hmin].
           inversion Hj; subst. this_object Hhit Hint2.
           by apply float_not_leb_not_ltb.
        -- intros [|j] o2 p2 t2 Hjk Hj Hint2; simpl in Hj.
           ++ inversion Hj; subst. by this_object Hhit Hint2.
           ++ eapply (Hfst j); [lia|done|done].
    + (* no intersection with this object *)
      specialize (IH (i + 1) pmin tmin imin).
      destruct (castRay_loop ray os (i + 1) (pmin, tmin, imin)) as [[p' t'] i'].
      destruct IH as [[Heq Hrest]|(k & o' & Hk & Hi & Hint & Hlt' & Hmin & Hfst)].
      * left. split; [done|]. intros o2 p2 t2 Ho2 Hint2.
        apply elem_of_cons in Ho2 as [->|Ho2]; [|by eapply Hrest].
        unfold intersects in Hint2. rewrite Hhit in Hint2. by inversion Hint2.
      * right. exists (S k), o'. repeat split; [done|lia|done|done|..].
        -- intros [|j] o2 p2 t2 Hj Hint2; simpl in Hj; [|by eapply Hmin].
           inversion Hj; subst. unfold intersects in Hint2.
           rewrite Hhit in Hint2. by inversion Hint2.
        -- intros [|j] o2 p2 t2 Hjk Hj Hint2; simpl in Hj.
           ++ inversion Hj; subst. unfold intersects in Hint2.
              rewrite Hhit in Hint2. by inversion Hint2.
           ++ eapply (Hfst j); [lia|done|done].
Qed.

(** What [castRay] returns, by case. *)
Lemma castRay_cases (s : Scene) :
  match castRay s ray with
  | (Some i, p) =>
      exists o t,
        Objects s !! i = Some o /\ intersects ray o p t /\
        (t <? MaxFloat64)%sc = true /\
        (forall (j : nat) o2 p2 t2,
           Objects s !! j = Some o2 -> intersects ray o2 p2 t2 ->
           (t2 <? t)%sc = false) /\
        (forall (j : nat) o2 p2 t2,
           (j < i)%nat -> Objects s !! j = Some o2 ->
           intersects ray o2 p2 t2 -> (t2 <=? t)%sc = false)
  | (None, p) =>
      p = Origin /\
      forall o p2 t2,
        o ∈ Objects s -> intersects ray o p2 t2 ->
        (t2 <? MaxFloat64)%sc = false
  end.
Proof.
  unfold castRay.
  pose proof (castRay_loop_spec (Objects s) 0 (mkPoint #0 #0 #0)%sc
                MaxFloat64 (-1)) as Hloop.
  destruct (castRay_loop ray (Objects s) 0 _) as [[p' t'] i'].
  destruct Hloop as [[Heq Hrest]|(k & o & Hk & Hi & Hint & Hlt & Hmin & Hfst)].
  - inversion Heq; subst. simpl. split; [done|]. exact Hrest.
  - subst i'. destruct (Z.eqb_spec (0 + Z.of_nat k) (-1)) as [Hneg|_]; [lia|].
    replace (Z.to_nat (0 + Z.of_nat k)) with k by lia.
    exists o, t'. done.
Qed.

End CastRay.

(** [rayHitsObject] answers whether some object of the scene is
    intersected. *)
Lemma rayHitsObject_loop_true (os : list raytracer.Sphere) (ray : Line float) :
  rayHitsObject_loop os ray = true <->
  exists o p t, o ∈ os /\ intersects ray o p t.
Proof.
  induction os as [|o os IH]; simpl.
  - split; [done|]. intros (o & p & t & Ho & _). by apply elem_of_nil in Ho.
  - destruct (SphereLineIntersection (Sphere_ o) ray) as [[p t] ok] eqn:Hhit.
    destruct ok.
    + split; [|done]. intros _. exists o, p, t. split; [left|done].
    + rewrite IH. split.
      * intros (o2 & p2 & t2 & Ho2 & Hint). exists o2, p2, t2.
        split; [by right|done].
      * intros (o2 & p2 & t2 & Ho2 & Hint).
        apply elem_of_cons in Ho2 as [->|Ho2].
        -- unfold intersects in Hint. rewrite Hhit in Hint. by inversion Hint.
        -- by exists o2, p2, t2.
Qed.

(** [castRay] returns an object exactly when some object is intersected
    below the bound the search starts from. *)
Lemma castRay_is_Some (s : Scene) (ray : Line float) :
  is_Some (castRay s ray).1 <->
  exists o p t,
    o ∈ Objects s /\ intersects ray o p t /\ (t <? MaxFloat64)%sc = true.
Proof.
  pose proof (castRay_cases ray s) as Hc.
  destruct (castRay s ray) as [[i|] p]; cbn [fst].
  - destruct Hc as (o & t & Hi & Hint & Hlt & _). split; [|done].
    intros _. exists o, p, t. split; [|done]. by eapply list_elem_of_lookup_2.
  - destruct Hc as [_ Hnone]. split; [by intros []|].
    intros (o & p2 & t2 & Ho & Hint & Hlt).
    rewrite (Hnone o p2 t2 Ho Hint) in Hlt. done.
Qed.

(** C2 (as amended).  [castRay] returns the first object that achieves
    the minimum parameter [t] among the intersected objects whose [t] is
    below [MaxFloat64], with its hit point: the object is intersected at
    the point returned, no intersected object has a smaller [t], and no
    earlier intersected object has a [t] that is smaller or equal (so that
    of two objects with the same minimal [t] the earlier one is returned).
    It returns none, with [Origin], exactly when no object is intersected
    below [MaxFloat64]. *)
Theorem castRay_first_nearest_below_bound (s : Scene) (ray : Line float) :
  match castRay s ray with
  | (Some i, p) =>
      exists o t,
        Objects s !! i = Some o /\ intersects ray o p t /\
        (t <? MaxFloat64)%sc = true /\
        forall (j : nat) o2 p2 t2,
          Objects s !! j = Some o2 -> intersects ray o2 p2 t2 ->
          (t2 <? t)%sc = false /\
          ((j < i)%nat ->
           (t2 <=? t)%sc = false /\ PrimFloat.eqb t2 t = false)
  | (None, p) =>
      p = Origin /\
      forall o p2 t2,
        o ∈ Objects s -> intersects ray o p2 t2 ->
        (t2 <? MaxFloat64)%sc = false
  end.
Proof.
  pose proof (castRay_cases ray s) as Hc.
  destruct (castRay s ray) as [[i|] p]; [|exact Hc].
  destruct Hc as (o & t & Hi & Hint & Hlt & Hmin & Hfst).
  exists o, t. do 3 (split; [done|]).
  intros j o2 p2 t2 Hj Hint2. split; [by eapply Hmin|].
  intros Hji. split; [by eapply Hfst|].
    destruct (PrimFloat.eqb t2 t) eqn:Heq; [|done].
    apply float_eqb_leb in Heq. by rewrite (Hfst j o2 p2 t2) in Heq.
Qed.

(** C2, the claim as stated fails: the sphere of [scene_flat] is
    intersected by the primary ray of the pixel (1, 1), whose endpoints
    are equal, with a parameter [t] that is not a number; [castRay]
    returns none although an object is intersected. *)
Lemma castRay_none_though_intersected :
  Validate inputs.scene_flat = None /\
  SphereLineIntersection (Sphere_ (inputs.ball 7 5 0 2 1 0 0))
    (primaryRay inputs.scene_flat 1 1)
  = (mkPoint nan nan nan, nan, true) /\
  castRay inputs.scene_flat (primaryRay inputs.scene_flat 1 1)
  = (None, Origin).
Proof. vm_compute. done. Qed.

(** C10 (as amended).  [rayHitsObject] is true exactly when some object
    is intersected; [castRay] returns an object exactly when some object
    is intersected with a parameter below [MaxFloat64]; hence an object
    from [castRay] implies [rayHitsObject], and the two agree on every ray
    whose intersections all have a parameter below [MaxFloat64]. *)
Theorem castRay_object_implies_rayHitsObject (s : Scene) (ray : Line float) :
  (rayHitsObject s ray = true <->
   exists o p t, o ∈ Objects s /\ intersects ray o p t) /\
  (is_Some (castRay s ray).1 <->
   exists o p t,
     o ∈ Objects s /\ intersects ray o p t /\ (t <? MaxFloat64)%sc = true) /\
  (is_Some (castRay s ray).1 -> rayHitsObject s ray = true) /\
  ((forall o p t, o ∈ Objects s -> intersects ray o p t ->
                  (t <? MaxFloat64)%sc = true) ->
   (rayHitsObject s ray = true <-> is_Some (castRay s ray).1)).
Proof.
  pose proof (rayHitsObject_loop_true (Objects s) ray) as Hhit.
  pose proof (castRay_is_Some s ray) as Hcast.
  fold (rayHitsObject s ray) in Hhit.
  split; [exact Hhit|]. split; [exact Hcast|]. split; [|intros Hbelow; split].
  - intros Hsome. apply Hhit. apply Hcast in Hsome as (o & p & t & Ho & Hi & _).
    by exists o, p, t.
  - intros Htrue. apply Hcast. apply Hhit in Htrue as (o & p & t & Ho & Hi).
    exists o, p, t. repeat split; [done..|]. by eapply Hbelow.
  - intros Hsome. apply Hhit. apply Hcast in Hsome as (o & p & t & Ho & Hi & _).
    by exists o, p, t.
Qed.

(** C10 at the primary ray of the pixel (0, 0) of [scene_two_spheres]:
    its one intersection is at t = 0.4, and the two searches agree. *)
Lemma castRay_object_implies_rayHitsObject_witness :
  rayHitsObject inputs.scene_two_spheres
    (primaryRay inputs.scene_two_spheres 0 0) = true <->
  is_Some (castRay inputs.scene_two_spheres
             (primaryRay inputs.scene_two_spheres 0 0)).1.
Proof.
  apply (castRay_object_implies_rayHitsObject inputs.scene_two_spheres
           (primaryRay inputs.scene_two_spheres 0 0)).
  intros o p t Ho Hint. unfold intersects in Hint.
  apply list_elem_of_In in Ho. simpl in Ho.
  destruct Ho as [<-|[<-|[]]]; vm_compute in Hint; [|discriminate].
  injection Hint as <- <-. vm_compute. reflexivity.
Defined.

(** C10, the claim as stated fails: in [scene_light_on_far] the ray from
    the far-plane point of the pixel (1, 1) to the light has equal
    endpoints; [rayHitsObject] answers true and [castRay] returns no
    object. *)
Lemma rayHitsObject_true_castRay_none :
  Validate inputs.scene_light_on_far = None /\
  rayHitsObject inputs.scene_light_on_far
    (mkLine (farPoint inputs.scene_light_on_far 1 1)
            (Light inputs.scene_light_on_far)) = true /\
  castRay inputs.scene_light_on_far
    (mkLine (farPoint inputs.scene_light_on_far 1 1)
            (Light inputs.scene_light_on_far)) = (None, Origin).
Proof. vm_compute. done. Qed.

(** Two spheres in the same place are met at the same [t]: [castRay]
    returns the first. *)
Lemma castRay_tie_example :
  castRay (mkScene (mkFrustum (inputs.plane 0 4 4 0 0) (inputs.plane 0 8 8 0 10))
             (inputs.point 0 0 (-10))
             [inputs.ball 0 0 5 1 1 0 0; inputs.ball 0 0 5 1 0 1 0]
             (mkColor 0 0 0) 0.5%float)
          (inputs.line 0 0 0 0 0 10)
  = (Some 0%nat, inputs.point 0 0 4).
Proof. vm_compute. reflexivity. Qed.

(** ** The color of a pixel *)

(** C3.  [renderPixel] converts one of four colors.  When the primary ray
    hits an object and the nearest hit of the ray from the light to the
    hit point is another object, each channel is (1 - kd) times the
    channel of the object; when it hits and that is not so, each channel
    is [factor * kd * channel + factor * (1 - kd)], [factor] being the
    product of the unit vector from the hit point to the light with the
    normal, or 0 when that is negative; when it misses and the ray from
    the far-plane point to the light hits an object, the background halved;
    otherwise the background.  The two shadow formulas are not one: in
    [scene_two_spheres], where kd is 0.25, the shadowed red sphere is
    0.75 of its color and the shadowed background is half of its color. *)
Theorem renderPixel_four_cases (s : Scene) (x y : float) :
  renderPixel s x y = toRGBA (pixelColor s x y) /\
  match castRay s (primaryRay s x y) with
  | (Some obj, p) =>
      let o := deref s obj in
      let shadowed :=
        exists other,
          (castRay s (mkLine (Light s) p)).1 = Some other /\ other <> obj in
      (shadowed ->
       pixelColor s x y
       = mkColor ((#1 - Kd s) * CR (Color_ o))%sc
                 ((#1 - Kd s) * CG (Color_ o))%sc
                 ((#1 - Kd s) * CB (Color_ o))%sc) /\
      (~ shadowed ->
       let dot := DotProduct (UnitVector (MakeVector (Light s) p))
                             (NormalVectorAt (Sphere_ o) p) in
       let factor := if (dot <? #0)%sc then (#0)%sc else dot in
       pixelColor s x y
       = mkColor
           (factor * Kd s * CR (Color_ o) + factor * (#1 - Kd s))%sc
           (factor * Kd s * CG (Color_ o) + factor * (#1 - Kd s))%sc
           (factor * Kd s * CB (Color_ o) + factor * (#1 - Kd s))%sc)
  | (None, _) =>
      let far := L1 (primaryRay s x y) in
      (rayHitsObject s (mkLine far (Light s)) = true ->
       pixelColor s x y
       = mkColor (CR (Bg s) / #2)%sc (CG (Bg s) / #2)%sc (CB (Bg s) / #2)%sc) /\
      (rayHitsObject s (mkLine far (Light s)) = false ->
       pixelColor s x y = Bg s)
  end /\
  (Kd inputs.scene_two_spheres = 0.25%float /\
   pixelColor inputs.scene_two_spheres 0 0 = mkColor 0.75 0 0 /\
   pixelColor inputs.scene_two_spheres (-1) 0 = mkColor 0.125 0.25 0.375).
Proof.
  split; [done|]. split; [|vm_compute; done].
  unfold pixelColor.
  destruct (castRay s (primaryRay s x y)) as [[obj|] p]; cbv zeta.
  - destruct (castRay s (mkLine (Light s) p)) as [[other|] q]; cbn [fst].
    + destruct (Nat.eqb_spec other obj) as [->|Hne]; cbn [negb]; split.
      * intros (other & [= <-] & Hne). done.
      * done.
      * done.
      * intros Hno. destruct Hno. by exists other.
    + split; [|done]. by intros (other & [=] & _).
  - unfold primaryRay. cbn [L1]. split; by intros ->.
Qed.

(** C3 at four pixels of [scene_two_spheres], one for each case: (0, 0)
    sees the red sphere in the shadow of the green one, (3, 0) the green
    sphere in the light, (-1, 0) the background in shadow and (1, 0) the
    background. *)
Lemma renderPixel_four_cases_witness :
  renderPixel inputs.scene_two_spheres 0 0 = mkRGBA 191 0 0 255 /\
  renderPixel inputs.scene_two_spheres 3 0 = mkRGBA 182 242 182 255 /\
  renderPixel inputs.scene_two_spheres (-1) 0 = mkRGBA 31 63 95 255 /\
  renderPixel inputs.scene_two_spheres 1 0 = mkRGBA 63 127 191 255.
Proof.
  split; [|split; [|split]].
  - destruct (renderPixel_four_cases inputs.scene_two_spheres 0 0)
      as (-> & Hcase & _).
    replace (castRay inputs.scene_two_spheres
               (primaryRay inputs.scene_two_spheres 0 0))
      with (Some 0%nat, inputs.point 0 0 4) in Hcase
      by (vm_compute; reflexivity).
    destruct Hcase as [Hshadowed _]. rewrite Hshadowed.
    + vm_compute. reflexivity.
    + exists 1%nat. split; [vm_compute; reflexivity|discriminate].
  - destruct (renderPixel_four_cases inputs.scene_two_spheres 3 0)
      as (-> & Hcase & _).
    destruct (castRay inputs.scene_two_spheres
                (primaryRay inputs.scene_two_spheres 3 0))
      as [[obj|] p] eqn:Hhit; vm_compute in Hhit; [|discriminate].
    injection Hhit as <- <-. destruct Hcase as [_ Hlit]. rewrite Hlit.
    + vm_compute. reflexivity.
    + intros (other & Hother & Hne). vm_compute in Hother.
      injection Hother as <-. by destruct Hne.
  - destruct (renderPixel_four_cases inputs.scene_two_spheres (-1) 0)
      as (-> & Hcase & _).
    replace (castRay inputs.scene_two_spheres
               (primaryRay inputs.scene_two_spheres (-1) 0))
      with (@None nat, inputs.point 0 0 0) in Hcase
      by (vm_compute; reflexivity).
    destruct Hcase as [Hshadow _]. rewrite Hshadow; vm_compute; reflexivity.
  - destruct (renderPixel_four_cases inputs.scene_two_spheres 1 0)
      as (-> & Hcase & _).
    replace (castRay inputs.scene_two_spheres
               (primaryRay inputs.scene_two_spheres 1 0))
      with (@None nat, inputs.point 0 0 0) in Hcase
      by (vm_compute; reflexivity).
    destruct Hcase as [_ Hclear]. rewrite Hclear; vm_compute; reflexivity.
Defined.

(** [trunc] is the integer part: of a float that is not negative, the
    largest integer that is not above it. *)
Lemma trunc_floor (f : float) (m : positive) (e : Z) :
  Prim2SF f = S754_finite false m e ->
  (0 <= e -> trunc f = Z.pos m * 2 ^ e) /\
  (e < 0 -> trunc f * 2 ^ (- e) <= Z.pos m < (trunc f + 1) * 2 ^ (- e)).
Proof.
  intros Hf. unfold trunc. rewrite Hf. split; intros He.
  - destruct (Z.leb_spec 0 e); [done|lia].
  - destruct (Z.leb_spec 0 e); [lia|].
    assert (Hpow : 0 < 2 ^ (- e)) by (apply Z.pow_pos_nonneg; lia).
    pose proof (Z.mul_div_le (Z.pos m) (2 ^ (- e)) Hpow).
    pose proof (Z.mul_succ_div_gt (Z.pos m) (2 ^ (- e)) Hpow). lia.
Qed.

(** C9.  [toRGBA] multiplies each channel by 255 and keeps the integer
    part, and sets alpha to 255; the integer part is a floor, not a
    rounding (0.5 * 255 = 127.5 gives 127, 0.999 * 255 gives 254).  The
    color (0.2, 0.4, 0.6) converts to (51, 102, 153). *)
Theorem toRGBA_scales_and_truncates :
  toRGBA (mkColor 0.2 0.4 0.6) = mkRGBA 51 102 153 255 /\
  toRGBA (mkColor 0.5 0.999 1) = mkRGBA 127 254 255 255 /\
  (forall c,
     toRGBA c
     = mkRGBA (uint8_of_float64 (CR c * #255)%sc)
              (uint8_of_float64 (CG c * #255)%sc)
              (uint8_of_float64 (CB c * #255)%sc) 255) /\
  (forall f, 0 <= trunc f < 256 -> uint8_of_float64 f = trunc f) /\
  (forall f m e,
     Prim2SF f = S754_finite false m e ->
     (0 <= e -> trunc f = Z.pos m * 2 ^ e) /\
     (e < 0 -> trunc f * 2 ^ (- e) <= Z.pos m < (trunc f + 1) * 2 ^ (- e))).
Proof.
  split; [vm_compute; reflexivity|]. split; [vm_compute; reflexivity|].
  split; [done|]. split; [|exact trunc_floor].
  intros f Hf. unfold uint8_of_float64. by apply Z.mod_small.
Qed.

(** C8, evaluated on [scene_wide], whose near plane is 4 wide and 2 high
    and whose far plane is 8 wide and 4 high.  The primary ray of
    [renderPixel] runs from [(x, y, nearZ)] to
    [(x * farDx / nearDx, y * farDy / nearDx, farZ)]: the second coordinate
    is divided by the width of the near plane.  For the pixel (1, 1) the
    far point is (2, 1, 20), and the point the far-to-near ratios give is
    (2, 2, 20). *)
Theorem primaryRay_divides_y_by_near_width :
  (forall s x y,
     primaryRay s x y
     = mkLine (mkPoint x y (PlZ (Near (ViewFrustum s))))
         (mkPoint (x * Dx (Far (ViewFrustum s)) / Dx (Near (ViewFrustum s)))%sc
                  (y * Dy (Far (ViewFrustum s)) / Dx (Near (ViewFrustum s)))%sc
                  (PlZ (Far (ViewFrustum s))))) /\
  Validate inputs.scene_wide = None /\
  L0 (primaryRay inputs.scene_wide 1 1) = inputs.point 1 1 0 /\
  L1 (primaryRay inputs.scene_wide 1 1) = inputs.point 2 1 20 /\
  spec_farPoint inputs.scene_wide 1 1 = inputs.point 2 2 20.
Proof. split; [done|]. vm_compute. done. Qed.

(** Where the near plane is as high as it is wide the two agree. *)
Lemma primaryRay_far_point_square (s : Scene) (x y : float) :
  Dy (Near (ViewFrustum s)) = Dx (Near (ViewFrustum s)) ->
  L1 (primaryRay s x y) = spec_farPoint s x y.
Proof.
  intros Hsq. unfold primaryRay, farPoint, spec_farPoint. cbn [L1].
  by rewrite Hsq.
Qed.

Lemma primaryRay_far_point_square_witness :
  L1 (primaryRay inputs.scene_two_spheres 1 1)
  = spec_farPoint inputs.scene_two_spheres 1 1.
Proof.
  apply (primaryRay_far_point_square inputs.scene_two_spheres).
  vm_compute. reflexivity.
Defined.

(** ** The image buffer *)

Section Raster.

Lemma In_bounds (x y : Z) (r : Rectangle) :
  In x y r = true <-> MinX r <= x < MaxX r /\ MinY r <= y < MaxY r.
Proof. unfold In. rewrite !andb_true_iff. lia. Qed.

Lemma NewRGBA_well_formed (x0 y0 x1 y1 : Z) :
  well_formed (NewRGBA (Rect x0 y0 x1 y1)).
Proof.
  unfold well_formed, NewRGBA, Rect.
  destruct (Z.ltb_spec x1 x0), (Z.ltb_spec y1 y0); cbn [Bounds MinX MinY MaxX MaxY Stride Pix];
    rewrite length_replicate; repeat split; nia.
Qed.

Lemma SetRGBA_Bounds (p : Image) x y c : Bounds (SetRGBA p x y c) = Bounds p.
Proof. unfold SetRGBA. by destruct (negb _). Qed.

Lemma SetRGBA_well_formed (p : Image) x y c :
  well_formed p -> well_formed (SetRGBA p x y c).
Proof.
  unfold well_formed, SetRGBA. destruct (negb _); [done|].
  cbn [Bounds Stride Pix]. by rewrite !length_insert.
Qed.

(** The byte offset of a pixel of the bounds, and the room after it. *)
Lemma PixOffset_range (p : Image) (x y : Z) :
  well_formed p -> In x y (Bounds p) = true ->
  0 <= PixOffset p x y /\
  PixOffset p x y + 3 < Z.of_nat (length (Pix p)) /\
  PixOffset p x y
  = 4 * ((y - MinY (Bounds p)) * (MaxX (Bounds p) - MinX (Bounds p))
         + (x - MinX (Bounds p))).
Proof.
  intros (Hx & Hy & Hs & Hl) Hin%In_bounds. unfold PixOffset.
  rewrite Hl, Hs. nia.
Qed.

(** Two pixels of the bounds that are not the same are four bytes apart
    or more. *)
Lemma PixOffset_apart (p : Image) (x y x' y' : Z) :
  well_formed p -> In x y (Bounds p) = true -> In x' y' (Bounds p) = true ->
  (x, y) <> (x', y') ->
  PixOffset p x y + 3 < PixOffset p x' y' \/
  PixOffset p x' y' + 3 < PixOffset p x y.
Proof.
  intros Hwf Hin Hin'. 
  destruct (PixOffset_range p x y Hwf Hin) as (_ & _ & ->).
  destruct (PixOffset_range p x' y' Hwf Hin') as (_ & _ & ->).
  apply In_bounds in Hin, Hin'. intros Hne.
  assert (y <> y' \/ (y = y' /\ x <> x')) as [Hy|[-> Hx]].
  { destruct (Z.eq_dec y y'); [right|by left]. split; [done|]. congruence. }
  - nia.
  - lia.
Qed.

Lemma SetRGBA_PixOffset (p : Image) x y c x' y' :
  PixOffset (SetRGBA p x y c) x' y' = PixOffset p x' y'.
Proof. unfold SetRGBA. by destruct (negb _). Qed.

Lemma SetRGBA_Pix (p : Image) x y c :
  In x y (Bounds p) = true ->
  Pix (SetRGBA p x y c)
  = let i := Z.to_nat (PixOffset p x y) in
    <[(i + 3)%nat := A8 c]>
      (<[(i + 2)%nat := B8 c]> (<[(i + 1)%nat := G8 c]> (<[i := R8 c]> (Pix p)))).
Proof. intros Hin. unfold SetRGBA. by rewrite Hin. Qed.

Lemma SetRGBA_outside (p : Image) x y c :
  In x y (Bounds p) = false -> SetRGBA p x y c = p.
Proof. intros Hin. unfold SetRGBA. by rewrite Hin. Qed.

Lemma RGBAAt_SetRGBA_same (p : Image) (x y : Z) (c : RGBA) :
  well_formed p -> In x y (Bounds p) = true ->
  RGBAAt (SetRGBA p x y c) x y = c.
Proof.
  intros Hwf Hin. unfold RGBAAt.
  rewrite SetRGBA_Bounds, Hin, SetRGBA_PixOffset, SetRGBA_Pix by done.
  cbn [negb]. cbv zeta.
  destruct (PixOffset_range p x y Hwf Hin) as (H0 & Hlen & _).
  set (i := Z.to_nat (PixOffset p x y)).
  assert (i + 3 < length (Pix p))%nat by lia.
  destruct c as [r g b a]. cbn [R8 G8 B8 A8]. f_equal.
  - do 3 (rewrite list_lookup_total_insert_ne by lia).
    rewrite list_lookup_total_insert_eq; [done|lia].
  - do 2 (rewrite list_lookup_total_insert_ne by lia).
    rewrite list_lookup_total_insert_eq; [done|rewrite ?length_insert; lia].
  - rewrite list_lookup_total_insert_ne by lia.
    rewrite list_lookup_total_insert_eq; [done|rewrite ?length_insert; lia].
  - rewrite list_lookup_total_insert_eq; [done|rewrite ?length_insert; lia].
Qed.

Lemma RGBAAt_SetRGBA_other (p : Image) (x y x' y' : Z) (c : RGBA) :
  well_formed p -> (x, y) <> (x', y') ->
  RGBAAt (SetRGBA p x y c) x' y' = RGBAAt p x' y'.
Proof.
  intros Hwf Hne.
  destruct (In x y (Bounds p)) eqn:Hin; [|by rewrite SetRGBA_outside].
  unfold RGBAAt. rewrite SetRGBA_Bounds.
  destruct (In x' y' (Bounds p)) eqn:Hin'; [|done]. cbn [negb].
  rewrite SetRGBA_PixOffset, SetRGBA_Pix by done. cbv zeta.
  destruct (PixOffset_range p x y Hwf Hin) as (H0 & Hlen & _).
  destruct (PixOffset_range p x' y' Hwf Hin') as (H0' & Hlen' & _).
  pose proof (PixOffset_apart p x y x' y' Hwf Hin Hin' Hne) as Hap.
  f_equal; do 4 (rewrite list_lookup_total_insert_ne by lia); done.
Qed.

End Raster.

Section Run.

Lemma perform_well_formed (img : Image) (w : write) :
  well_formed img -> well_formed (perform img w).
Proof. apply SetRGBA_well_formed. Qed.

Lemma run_well_formed (ws : list write) (img : Image) :
  well_formed img -> well_formed (run ws img).
Proof.
  revert img. induction ws as [|w ws IH]; intros img Hwf; [done|].
  simpl. apply IH. by apply perform_well_formed.
Qed.

Lemma run_Bounds (ws : list write) (img : Image) :
  Bounds (run ws img) = Bounds img.
Proof.
  revert img. induction ws as [|w ws IH]; intros img; [done|].
  simpl. rewrite IH. apply SetRGBA_Bounds.
Qed.

(** Writes whose color is a function [f] of the pixel: whatever their
    order, a pixel of the bounds that is written holds [f], and a pixel
    that is not written keeps what it held. *)
Lemma RGBAAt_run (f : Z -> Z -> RGBA) (ws : list write) :
  Forall (fun w => WC w = f (WX w) (WY w)) ws ->
  forall (img : Image) (x y : Z),
    well_formed img ->
    (In x y (Bounds img) = true ->
     (exists w, w ∈ ws /\ WX w = x /\ WY w = y) ->
     RGBAAt (run ws img) x y = f x y) /\
    ((forall w, w ∈ ws -> (WX w, WY w) <> (x, y)) ->
     RGBAAt (run ws img) x y = RGBAAt img x y).
Proof.
  induction 1 as [|w ws Hw Hws IH]; intros img x y Hwf.
  - split; [|done]. intros _ (w & Hin & _). by apply elem_of_nil in Hin.
  - cbn [run fold_left]. fold (run ws (perform img w)).
    pose proof (perform_well_formed img w Hwf) as Hwf'.
    destruct (IH (perform img w) x y Hwf') as [IHin IHout].
    unfold perform in IHin, IHout. rewrite SetRGBA_Bounds in IHin. split.
    + intros Hin (w' & Hw' & Hx & Hy).
      destruct (decide (Exists (fun w2 => WX w2 = x /\ WY w2 = y) ws))
        as [Hlater|Hlast]; rewrite Exists_exists in *; [by apply IHin|].
      apply elem_of_cons in Hw' as [->|Hw']; [|destruct Hlast; by exists w'].
      unfold perform. rewrite IHout.
      * rewrite <- Hx, <- Hy. rewrite RGBAAt_SetRGBA_same; [done..|].
        by rewrite Hx, Hy.
      * intros w2 Hw2 Heq. destruct Hlast. exists w2. by inversion Heq.
    + intros Hnone. unfold perform. rewrite IHout.
      * apply RGBAAt_SetRGBA_other; [done|]. apply Hnone. left.
      * intros w2 Hw2. apply Hnone. by right.
Qed.

End Run.

Section Images.

(** A new image is zero everywhere. *)
Lemma RGBAAt_NewRGBA (x0 y0 x1 y1 x y : Z) :
  RGBAAt (NewRGBA (Rect x0 y0 x1 y1)) x y = mkRGBA 0 0 0 0.
Proof.
  pose proof (NewRGBA_well_formed x0 y0 x1 y1) as Hwf.
  unfold RGBAAt.
  destruct (In x y (Bounds (NewRGBA (Rect x0 y0 x1 y1)))) eqn:Hin; [|done].
  destruct (PixOffset_range _ x y Hwf Hin) as (H0 & Hlen & _).
  cbn [negb].
  assert (Hi : (Z.to_nat (PixOffset (NewRGBA (Rect x0 y0 x1 y1)) x y) + 3
                < length (Pix (NewRGBA (Rect x0 y0 x1 y1))))%nat) by lia.
  revert Hi. generalize (Z.to_nat (PixOffset (NewRGBA (Rect x0 y0 x1 y1)) x y)).
  intros i. unfold NewRGBA. cbn [Pix]. rewrite length_replicate. intros Hi.
  rewrite !lookup_total_replicate_2 by lia. done.
Qed.

(** Two images of the same bounds that agree on every pixel are the same
    bytes. *)
Lemma image_ext (p q : Image) :
  well_formed p -> well_formed q -> Bounds p = Bounds q ->
  (forall x y, RGBAAt p x y = RGBAAt q x y) -> p = q.
Proof.
  intros Hp Hq Hb Hpix.
  assert (Hlen : length (Pix p) = length (Pix q)).
  { destruct Hp as (_ & _ & _ & Hlp), Hq as (_ & _ & _ & Hlq).
    rewrite Hb in Hlp. lia. }
  assert (Hstride : Stride p = Stride q).
  { destruct Hp as (_ & _ & Hsp & _), Hq as (_ & _ & Hsq & _).
    rewrite Hb in Hsp. lia. }
  assert (Hbytes : Pix p = Pix q); [|destruct p, q; simpl in *; congruence].
  apply list_eq. intros i.
  destruct (decide (i < length (Pix p))%nat) as [Hi|Hi].
  2:{ rewrite !lookup_ge_None_2 by lia. done. }
  set (r := Bounds p). set (W := MaxX r - MinX r).
  pose proof Hp as (Hx & Hy & Hs & Hl). fold r W in Hx, Hy, Hs, Hl.
  assert (HW : 0 < W) by nia.
  set (n := Z.of_nat i / 4). set (k := Z.of_nat i mod 4).
  pose proof (Z.div_mod (Z.of_nat i) 4 ltac:(lia)) as Hik.
  pose proof (Z.mod_pos_bound (Z.of_nat i) 4 ltac:(lia)) as Hk.
  fold n k in Hik, Hk.
  pose proof (Z.div_mod n W ltac:(lia)) as Hn.
  pose proof (Z.mod_pos_bound n W ltac:(lia)) as Hm.
  assert (Hn0 : 0 <= n) by (apply Z.div_pos; lia).
  assert (Hq0 : 0 <= n / W) by (apply Z.div_pos; lia).
  set (x := MinX r + n mod W). set (y := MinY r + n / W).
  assert (Hin : In x y (Bounds p) = true).
  { apply In_bounds. fold r. unfold x, y. split; [lia|]. split; [lia|].
    assert (n / W < MaxY r - MinY r); [|lia].
    apply Z.div_lt_upper_bound; [lia|]. nia. }
  destruct (PixOffset_range p x y Hp Hin) as (Ho0 & Hend & Hoff).
  fold r W in Hoff.
  assert (Hoffn : PixOffset p x y = 4 * n) by (rewrite Hoff; unfold x, y; nia).
  assert (Hoffq : PixOffset q x y = PixOffset p x y).
  { unfold PixOffset. by rewrite Hb, Hstride. }
  specialize (Hpix x y). unfold RGBAAt in Hpix.
  rewrite <- Hb, Hin, Hoffq in Hpix. cbn [negb] in Hpix.
  set (j := Z.to_nat (PixOffset p x y)) in *.
  rewrite (list_lookup_lookup_total_lt (Pix p) i) by lia.
  rewrite (list_lookup_lookup_total_lt (Pix q) i) by lia.
  f_equal. inversion Hpix as [[Hr Hg Hbl Ha]].
  assert (i = j \/ i = j + 1 \/ i = j + 2 \/ i = j + 3)%nat
    as [Hij|[Hij|[Hij|Hij]]] by lia; by rewrite Hij.
Qed.

End Images.

(** ** The stripes and their interleavings *)

Section Stripes.
Variable s : Scene.

Lemma elem_of_stripe_row (w y : Z) (wr : write) :
  wr ∈ stripe_row s w y <->
  exists x, 0 <= x < w /\ wr = mkWrite x y (pixel s x y).
Proof.
  unfold stripe_row. rewrite list_elem_of_fmap. setoid_rewrite elem_of_seqZ.
  split; intros (x & H1 & H2); exists x; (split; [lia || done|done || lia]).
Qed.

Lemma elem_of_stripe (w ystart yend : Z) (wr : write) :
  wr ∈ stripe s w ystart yend <->
  exists x y, 0 <= x < w /\ ystart <= y < yend /\
              wr = mkWrite x y (pixel s x y).
Proof.
  unfold stripe. rewrite list_elem_of_bind.
  setoid_rewrite elem_of_seqZ. setoid_rewrite elem_of_stripe_row. split.
  - intros (y & (x & Hx & ->) & Hy). exists x, y. repeat split; lia.
  - intros (x & y & Hx & Hy & ->). exists y. split; [by exists x|lia].
Qed.

Lemma elem_of_concat {A} (x : A) (ls : list (list A)) :
  x ∈ concat ls <-> exists l, l ∈ ls /\ x ∈ l.
Proof.
  rewrite list_elem_of_In, in_concat. split; intros (l & H1 & H2); exists l.
  - by rewrite !list_elem_of_In.
  - by rewrite <- !list_elem_of_In.
Qed.

(** The rows some stripe covers: those below [nstripes * slice]. *)
Lemma stripe_rows (h nstripes y : Z) :
  1 <= nstripes ->
  (exists n, 0 <= n < nstripes /\
             Z.quot h nstripes * n <= y
             < Z.quot h nstripes * n + Z.quot h nstripes) <->
  0 <= y < nstripes * Z.quot h nstripes.
Proof.
  intros Hn. set (slice := Z.quot h nstripes). split.
  - intros (n & Hn' & Hy). nia.
  - intros Hy. assert (0 < slice) by nia.
    exists (y / slice).
    pose proof (Z.div_mod y slice ltac:(lia)) as Hdm.
    pose proof (Z.mod_pos_bound y slice ltac:(lia)) as Hmod.
    assert (0 <= y / slice) by (apply Z.div_pos; lia).
    assert (y / slice < nstripes).
    { apply Z.div_lt_upper_bound; lia. }
    lia.
Qed.

Lemma elem_of_stripes (w h nstripes : Z) (wr : write) :
  1 <= nstripes ->
  wr ∈ concat (stripes s w h nstripes) <->
  exists x y, 0 <= x < w /\ 0 <= y < nstripes * Z.quot h nstripes /\
              wr = mkWrite x y (pixel s x y).
Proof.
  intros Hn. rewrite elem_of_concat. unfold stripes.
  setoid_rewrite list_elem_of_fmap. setoid_rewrite elem_of_seqZ. split.
  - intros (l & (n & -> & Hn') & Hwr). apply elem_of_stripe in Hwr.
    destruct Hwr as (x & y & Hx & Hy & ->). exists x, y.
    split; [done|]. split; [|done]. apply stripe_rows; [done|].
    exists n. lia.
  - intros (x & y & Hx & Hy & ->).
    apply stripe_rows in Hy as (n & Hn' & Hy); [|done].
    eexists. split; [exists n; split; [done|lia]|].
    apply elem_of_stripe. exists x, y. done.
Qed.

Lemma stripes_functional (w h nstripes : Z) :
  1 <= nstripes ->
  Forall (fun wr => WC wr = pixel s (WX wr) (WY wr))
         (concat (stripes s w h nstripes)).
Proof.
  intros Hn. apply Forall_forall. intros wr Hwr.
  apply elem_of_stripes in Hwr as (x & y & _ & _ & ->); done.
Qed.

End Stripes.

Section Interleaving.

Lemma concat_all_nil {A} (ts : list (list A)) :
  Forall (fun t => t = []) ts -> concat ts = [].
Proof. induction 1 as [|t ts -> _ IH]; [done|]. simpl. done. Qed.

(** An interleaving performs the writes of the goroutines, each once. *)
Lemma interleaving_Permutation (ts : list (list write)) (ws : list write) :
  interleaving ts ws -> ws ≡ₚ concat ts.
Proof.
  induction 1 as [ts Hnil|ts1 w t ts2 ws _ IH].
  - by rewrite concat_all_nil.
  - rewrite concat_app in *. simpl in *. rewrite IH.
    by rewrite Permutation_middle.
Qed.

Lemma interleaving_nil_thread (ts : list (list write)) (ws : list write) :
  interleaving ts ws -> interleaving ([] :: ts) ws.
Proof.
  induction 1 as [ts Hnil|ts1 w t ts2 ws _ IH].
  - constructor. by constructor.
  - apply (interleaving_step ([] :: ts1)). exact IH.
Qed.

(** Running the goroutines one after the other is one interleaving. *)
Lemma interleaving_sequential (ts : list (list write)) :
  interleaving ts (concat ts).
Proof.
  induction ts as [|t ts IH]; [by constructor|].
  simpl. induction t as [|w t IHt]; simpl.
  - by apply interleaving_nil_thread.
  - apply (interleaving_step [] w t ts). exact IHt.
Qed.

End Interleaving.

Section Rendering.
Variable s : Scene.

Lemma blank_well_formed : well_formed (blank s).
Proof. apply NewRGBA_well_formed. Qed.

(** The rows the stripes cover are rows of the image. *)
Lemma covered_rows_in_bounds (nstripes x y : Z) :
  1 <= nstripes ->
  0 <= x < width s -> 0 <= y < nstripes * Z.quot (height s) nstripes ->
  Bounds (blank s) = mkRectangle 0 0 (width s) (height s) /\
  In x y (Bounds (blank s)) = true.
Proof.
  intros Hn Hx Hy.
  assert (Hq : 0 < Z.quot (height s) nstripes) by nia.
  assert (Hh : 0 <= height s).
  { destruct (Z.le_gt_cases 0 (height s)) as [|Hneg]; [done|].
    pose proof (Z.quot_opp_l (height s) nstripes ltac:(lia)) as Hopp.
    pose proof (Z.quot_pos (- height s) nstripes ltac:(lia) ltac:(lia)). lia. }
  assert (Hle : nstripes * Z.quot (height s) nstripes <= height s).
  { apply Z.mul_quot_le; lia. }
  assert (Hb : Bounds (blank s) = mkRectangle 0 0 (width s) (height s)).
  { unfold blank, NewRGBA, Rect. cbn [Bounds].
    destruct (Z.ltb_spec (width s) 0); [lia|].
    destruct (Z.ltb_spec (height s) 0); [lia|]. done. }
  split; [done|]. rewrite Hb. apply In_bounds. simpl. lia.
Qed.

(** What the image holds once the writes of the stripes are performed, in
    whatever order. *)
Lemma rendered_pixels (nstripes : Z) (ws : list write) (x y : Z) :
  1 <= nstripes ->
  ws ≡ₚ concat (stripes s (width s) (height s) nstripes) ->
  RGBAAt (run ws (blank s)) x y
  = if (0 <=? x) && (x <? width s) && (0 <=? y)
       && (y <? nstripes * Z.quot (height s) nstripes)
    then pixel s x y else mkRGBA 0 0 0 0.
Proof.
  intros Hn Hperm.
  assert (Hfun : Forall (fun wr => WC wr = pixel s (WX wr) (WY wr)) ws).
  { rewrite Hperm. by apply stripes_functional. }
  destruct (RGBAAt_run (pixel s) ws Hfun (blank s) x y blank_well_formed)
    as [Hin Hout].
  destruct (_ && _ && _ && _) eqn:Hc.
  - rewrite !andb_true_iff in Hc.
    assert (Hx : 0 <= x < width s) by lia.
    assert (Hy : 0 <= y < nstripes * Z.quot (height s) nstripes) by lia.
    destruct (covered_rows_in_bounds nstripes x y Hn Hx Hy) as [_ Hb].
    apply Hin; [done|]. exists (mkWrite x y (pixel s x y)).
    split; [|done]. rewrite Hperm. apply elem_of_stripes; [done|].
    by exists x, y.
  - rewrite Hout; [apply RGBAAt_NewRGBA|].
    intros wr Hwr Heq. rewrite Hperm in Hwr.
    apply elem_of_stripes in Hwr as (x' & y' & Hx' & Hy' & ->); [|done].
    inversion Heq; subst. rewrite !andb_false_iff in Hc. lia.
Qed.

(** Every interleaving of the goroutines leaves the image that running
    them one after the other leaves. *)
Lemma schedule_independent (nstripes : Z) (ws : list write) :
  1 <= nstripes ->
  interleaving (stripes s (width s) (height s) nstripes) ws ->
  run ws (blank s)
  = run (concat (stripes s (width s) (height s) nstripes)) (blank s).
Proof.
  intros Hn Hws%interleaving_Permutation.
  apply image_ext.
  - apply run_well_formed, blank_well_formed.
  - apply run_well_formed, blank_well_formed.
  - by rewrite !run_Bounds.
  - intros x y.
    rewrite (rendered_pixels nstripes ws), (rendered_pixels nstripes (concat _));
      done.
Qed.

Lemma clamp_ge_1 (nstripes : Z) : 1 <= clamp nstripes.
Proof. unfold clamp. destruct (Z.ltb_spec nstripes 1); lia. Qed.

Lemma clamp_id (nstripes : Z) : 1 <= nstripes -> clamp nstripes = nstripes.
Proof. unfold clamp. destruct (Z.ltb_spec nstripes 1); lia. Qed.

Lemma Render_schedule_unique (nstripes : Z) (r : error + Image) :
  Render_schedule s nstripes r <-> r = Render s nstripes.
Proof.
  unfold Render. split.
  - intros [err Herr|ws Hnone Hws]; rewrite ?Herr, ?Hnone; [done|].
    f_equal. apply schedule_independent; [apply clamp_ge_1|done].
  - intros ->. destruct (Validate s) eqn:Hv; [by constructor|].
    constructor; [done|]. apply interleaving_sequential.
Qed.

(** When the stripes cover the height, their number does not matter. *)
Lemma Render_covering_stripes (n m : Z) :
  1 <= n -> 1 <= m ->
  n * Z.quot (height s) n = m * Z.quot (height s) m ->
  Render s n = Render s m.
Proof.
  intros Hn Hm Hcover. unfold Render. rewrite !clamp_id by done.
  destruct (Validate s); [done|]. f_equal. apply image_ext.
  - apply run_well_formed, blank_well_formed.
  - apply run_well_formed, blank_well_formed.
  - by rewrite !run_Bounds.
  - intros x y.
    rewrite (rendered_pixels n), (rendered_pixels m) by done.
    by rewrite Hcover.
Qed.

End Rendering.

(** ** What [Render] leaves in the image *)

(** C6.  For a scene that passes the validation and [nstripes] of 1 or
    more, [Render] returns an image in which the stripe [n] has written
    the rows [slice * n] to [slice * n + slice - 1], [slice] being the
    quotient of the height by [nstripes]: every pixel of the rows 0 to
    [nstripes * slice - 1] holds the color [Render] computes for it, and
    every pixel of a later row holds the zero the buffer was made with.
    For a height that is not negative those later rows are the last
    [h mod nstripes] rows.  The interleaving of the goroutines does not
    matter. *)
Theorem Render_leaves_remainder_rows (s : Scene) (nstripes : Z) :
  1 <= nstripes -> Validate s = None ->
  let w := width s in
  let h := height s in
  let slice := Z.quot h nstripes in
  exists img,
    Render s nstripes = inr img /\
    (forall n,
       0 <= n < nstripes ->
       stripes s w h nstripes !! Z.to_nat n
       = Some (stripe s w (slice * n) (slice * n + slice))) /\
    (forall n wr,
       0 <= n < nstripes ->
       wr ∈ stripe s w (slice * n) (slice * n + slice) <->
       exists x y, 0 <= x < w /\ slice * n <= y < slice * n + slice /\
                   wr = mkWrite x y (pixel s x y)) /\
    (forall x y,
       0 <= x < w -> 0 <= y < nstripes * slice ->
       RGBAAt img x y = pixel s x y) /\
    (forall x y, nstripes * slice <= y -> RGBAAt img x y = mkRGBA 0 0 0 0) /\
    (0 <= h -> nstripes * slice = h - h mod nstripes) /\
    (forall r, Render_schedule s nstripes r -> r = inr img).
Proof.
  intros Hn Hvalid w h slice.
  exists (run (concat (stripes s w h nstripes)) (blank s)).
  assert (Hrender : Render s nstripes
                    = inr (run (concat (stripes s w h nstripes)) (blank s))).
  { unfold Render. by rewrite Hvalid, clamp_id. }
  split; [done|]. split; [|split; [|split; [|split; [|split]]]].
  - intros n Hlt. unfold stripes. rewrite list_lookup_fmap.
    rewrite lookup_seqZ_lt by lia. cbn [fmap option_fmap option_map].
    by rewrite Z2Nat.id, Z.add_0_l by lia.
  - intros n wr _. apply elem_of_stripe.
  - intros x y Hx Hy. rewrite (rendered_pixels s nstripes) by done.
    fold w h slice.
    destruct (Z.leb_spec 0 x), (Z.ltb_spec x w), (Z.leb_spec 0 y),
      (Z.ltb_spec y (nstripes * slice)); try lia. done.
  - intros x y Hy. rewrite (rendered_pixels s nstripes) by done.
    fold w h slice.
    destruct (Z.ltb_spec y (nstripes * slice)); [lia|].
    by rewrite andb_false_r.
  - intros Hh. unfold slice.
    pose proof (Z.quot_rem' h nstripes) as Hqr.
    rewrite Z.rem_mod_nonneg in Hqr by lia. lia.
  - intros r Hr%Render_schedule_unique. congruence.
Qed.

(** C6 at [scene_six_rows] in four stripes: the stripes are of one row,
    and the rows 4 and 5 stay zero. *)
Lemma Render_leaves_remainder_rows_witness :
  exists img,
    Render inputs.scene_six_rows 4 = inr img /\
    RGBAAt img 0 3 = pixel inputs.scene_six_rows 0 3 /\
    RGBAAt img 0 4 = mkRGBA 0 0 0 0 /\
    RGBAAt img 1 5 = mkRGBA 0 0 0 0.
Proof.
  assert (Hw : 0 <= 0 < width inputs.scene_six_rows)
    by (vm_compute; split; [discriminate|reflexivity]).
  assert (Hrow : 0 <= 3 < 4 * Z.quot (height inputs.scene_six_rows) 4)
    by (vm_compute; split; [discriminate|reflexivity]).
  assert (Hrest : forall y, 4 <= y ->
                            4 * Z.quot (height inputs.scene_six_rows) 4 <= y).
  { intros y Hy.
    replace (4 * Z.quot (height inputs.scene_six_rows) 4) with 4
      by (vm_compute; reflexivity).
    exact Hy. }
  destruct (Render_leaves_remainder_rows inputs.scene_six_rows 4)
    as (img & Hr & _ & _ & Hin & Hout & _);
    [lia|vm_compute; reflexivity|].
  exists img. split; [exact Hr|]. split; [|split].
  - exact (Hin 0 3 Hw Hrow).
  - exact (Hout 0 4 (Hrest 4 ltac:(lia))).
  - exact (Hout 1 5 (Hrest 5 ltac:(lia))).
Defined.

(** C5, evaluated on [scene_six_rows], a scene that passes the validation:
    in one stripe [Render] fills the six rows, in four stripes it fills
    four rows and leaves the rows 4 and 5 zero.  The two images are not
    the same bytes. *)
Theorem Render_1_and_4_differ_on_six_rows :
  Validate inputs.scene_six_rows = None /\
  height inputs.scene_six_rows = 6 /\
  exists img1 img4,
    Render inputs.scene_six_rows 1 = inr img1 /\
    Render inputs.scene_six_rows 4 = inr img4 /\
    RGBAAt img1 0 4 = mkRGBA 63 127 191 255 /\
    RGBAAt img4 0 4 = mkRGBA 0 0 0 0 /\
    Pix img1 !! 32%nat = Some 63 /\
    Pix img4 !! 32%nat = Some 0.
Proof.
  split; [reflexivity|]. split; [reflexivity|].
  eexists _, _. split; [vm_compute; reflexivity|].
  split; [vm_compute; reflexivity|]. vm_compute. done.
Qed.

(** The number of stripes does not change the image when it divides the
    height: one stripe and four stripes then give the same bytes. *)
Lemma Render_1_and_4_agree_when_4_divides (s : Scene) :
  (height s) mod 4 = 0 -> Render s 1 = Render s 4.
Proof.
  intros Hdiv. apply Render_covering_stripes; [lia..|].
  rewrite Z.quot_1_r.
  apply Z.mod_divide in Hdiv; [|lia]. apply Z.rem_divide in Hdiv; [|lia].
  apply Z.quot_exact in Hdiv; lia.
Qed.

Lemma Render_1_and_4_agree_when_4_divides_witness :
  Render inputs.scene_flat 1 = Render inputs.scene_flat 4.
Proof.
  apply (Render_1_and_4_agree_when_4_divides inputs.scene_flat).
  vm_compute. reflexivity.
Defined.

(** * Further properties of the code

    Edge cases, invariants and laws of the functions of packages geom and
    raytracer, in binary64 unless they are marked exact. *)

(** ** Classes of binary64 values *)

Section FloatClasses.

Lemma is_nan_spec (x : float) : is_nan x = true <-> Prim2SF x = S754_nan.
Proof.
  unfold is_nan. rewrite FloatAxioms.eqb_spec. unfold SFeqb. split.
  - intros Hx. destruct (Prim2SF x) eqn:Hp; [| |done|];
      by rewrite SFcompare_refl in Hx.
  - by intros ->.
Qed.

Lemma is_nan_eq (x : float) : is_nan x = true <-> x = nan.
Proof.
  rewrite is_nan_spec. split; [|by intros ->].
  intros Hx. apply Prim2SF_inj. by rewrite Hx.
Qed.

Lemma is_zero_spec (x : float) :
  is_zero x = true <-> exists s, Prim2SF x = S754_zero s.
Proof.
  unfold is_zero. rewrite FloatAxioms.eqb_spec. unfold SFeqb.
  change (Prim2SF zero) with (S754_zero false).
  destruct (Prim2SF x) as [s|s| |s m e]; simpl.
  - split; [by eexists|done].
  - split; [by destruct s|by intros [? ?]].
  - split; [done|by intros [? ?]].
  - split; [by destruct s|by intros [? ?]].
Qed.

Lemma is_finite_spec (x : float) :
  is_finite x = true <-> SFfin (Prim2SF x).
Proof.
  unfold is_finite, is_nan, is_infinity.
  rewrite !FloatAxioms.eqb_spec, abs_spec. unfold SFeqb.
  change (Prim2SF infinity) with (S754_infinity false).
  destruct (Prim2SF x) as [s|s| |s m e] eqn:Hx; simpl; try done.
  - by destruct s.
  - rewrite Z.compare_refl, Pos.compare_refl. by destruct s.
Qed.

Lemma zero_or_nan_spec (x : float) :
  is_zero x || is_nan x = true <-> zon x.
Proof.
  unfold zon. rewrite orb_true_iff, is_zero_spec, is_nan_spec.
  destruct (Prim2SF x); simpl; split; try done; try tauto.
  - intros _. left. by eexists.
  - by intros [[? ?]|?].
  - by intros [[? ?]|?].
Qed.

(** NaN absorbs the operations and fails the comparisons. *)
Lemma float_mul_nan_l x : (nan * x)%float = nan.
Proof. apply Prim2SF_inj. by rewrite mul_spec. Qed.

Lemma float_mul_nan_r x : (x * nan)%float = nan.
Proof. apply Prim2SF_inj. rewrite mul_spec. simpl. by destruct (Prim2SF x). Qed.

Lemma float_add_nan_l x : (nan + x)%float = nan.
Proof. apply Prim2SF_inj. by rewrite add_spec. Qed.

Lemma float_add_nan_r x : (x + nan)%float = nan.
Proof. apply Prim2SF_inj. rewrite add_spec. simpl. by destruct (Prim2SF x). Qed.

Lemma float_sub_nan_l x : (nan - x)%float = nan.
Proof. apply Prim2SF_inj. by rewrite sub_spec. Qed.

Lemma float_sub_nan_r x : (x - nan)%float = nan.
Proof. apply Prim2SF_inj. rewrite sub_spec. simpl. by destruct (Prim2SF x). Qed.

Lemma float_div_nan_l x : (nan / x)%float = nan.
Proof. apply Prim2SF_inj. by rewrite div_spec. Qed.

Lemma float_div_nan_r x : (x / nan)%float = nan.
Proof. apply Prim2SF_inj. rewrite div_spec. simpl. by destruct (Prim2SF x). Qed.

Lemma float_sqrt_nan : PrimFloat.sqrt nan = nan.
Proof. reflexivity. Qed.

Lemma float_opp_nan : (- nan)%float = nan.
Proof. reflexivity. Qed.

Lemma float_ltb_nan_l x : (nan <? x)%float = false.
Proof. by rewrite FloatAxioms.ltb_spec. Qed.

End FloatClasses.

Create Rewrite HintDb nan.
#[local] Hint Rewrite float_mul_nan_l float_mul_nan_r float_add_nan_l
  float_add_nan_r float_sub_nan_l float_sub_nan_r float_div_nan_l
  float_div_nan_r float_sqrt_nan float_opp_nan : nan.

Section SpecClasses.
Variables (prec emax : Z).

(** Rounding does not look at the sign. *)
Lemma binary_round_aux_abs s s' m e l :
  SFabs (binary_round_aux prec emax s m e l)
  = SFabs (binary_round_aux prec emax s' m e l).
Proof.
  unfold binary_round_aux.
  destruct (shr_fexp prec emax m e l) as [mrs' e'].
  destruct (shr_fexp prec emax _ e' loc_Exact) as [mrs'' e''].
  destruct (shr_m mrs''); [done| |done].
  by destruct (e'' <=? emax - prec).
Qed.

Lemma binary_normalize_abs_opp z e :
  SFabs (binary_normalize prec emax z e false)
  = SFabs (binary_normalize prec emax (- z) e false).
Proof.
  destruct z as [|p|p]; [done| |]; simpl; unfold binary_round;
    destruct (shl_align _ _ _) as [mz ez]; apply binary_round_aux_abs.
Qed.

Lemma SFsub_abs_comm a b :
  SFabs (SFsub prec emax a b) = SFabs (SFsub prec emax b a).
Proof.
  destruct a as [sa|sa| |sa ma ea], b as [sb|sb| |sb mb eb];
    try (by destruct sa, sb); try done.
  unfold SFsub. rewrite (Z.min_comm eb ea).
  rewrite binary_normalize_abs_opp. f_equal. f_equal. lia.
Qed.

Lemma SFsub_diag a : SFfin a -> SFsub prec emax a a = S754_zero false.
Proof.
  destruct a as [s|s| |s m e]; try done; intros _.
  - by destruct s.
  - unfold SFsub. by rewrite Z.sub_diag.
Qed.

Lemma SFsub_diag_nan a : ~ SFfin a -> SFsub prec emax a a = S754_nan.
Proof. destruct a as [s|s| |s m e]; simpl; try done; by destruct s. Qed.

Lemma SFsub_nan_inv a b :
  SFsub prec emax a b <> S754_nan -> a <> S754_nan /\ b <> S754_nan.
Proof. destruct a, b; simpl; try done. Qed.

Lemma SFmul_square_abs a b :
  SFabs a = SFabs b -> SFmul prec emax a a = SFmul prec emax b b.
Proof.
  destruct a as [sa|sa| |sa ma ea], b as [sb|sb| |sb mb eb]; simpl; try done.
  - by destruct sa, sb.
  - by destruct sa, sb.
  - intros [= -> ->]. by destruct sa, sb.
Qed.

Lemma SFltb_abs_pos a e :
  SFltb (SFabs a) e = true -> SFltb (S754_zero false) e = true.
Proof.
  destruct a as [sa|sa| |sa ma ea], e as [se|se| |se me ee]; simpl; try done.
  all: by destruct se.
Qed.

Lemma SFleb_unit_finite a :
  SFleb (Prim2SF 0) a = true -> SFleb a (Prim2SF 1) = true -> SFfin a.
Proof. destruct a as [s|s| |s m e]; try done; by destruct s. Qed.

(** A zero or NaN stays one under the operations. *)
Lemma SFmul_zon_l a b : SFzon a -> SFzon (SFmul prec emax a b).
Proof. by destruct a, b. Qed.

Lemma SFadd_zon a b : SFzon a -> SFzon b -> SFzon (SFadd prec emax a b).
Proof. destruct a as [[]| | |], b as [[]| | |]; done. Qed.

Lemma SFsub_zon a b : SFzon a -> SFzon b -> SFzon (SFsub prec emax a b).
Proof. destruct a as [[]| | |], b as [[]| | |]; done. Qed.

Lemma SFsqrt_zon a : SFzon a -> SFzon (SFsqrt prec emax a).
Proof. by destruct a. Qed.

Lemma SFopp_zon a : SFzon a -> SFzon (SFopp a).
Proof. by destruct a. Qed.

Lemma SFdiv_zon a b : SFzon a -> SFzon b -> SFdiv prec emax a b = S754_nan.
Proof. by destruct a, b. Qed.

Lemma SFltb_zon_0 a : SFzon a -> SFltb a (S754_zero false) = false.
Proof. by destruct a. Qed.

End SpecClasses.

Section ZeroOrNaN.

Lemma zon_zero : zon 0%float.
Proof. done. Qed.

Lemma float_abs_sub_comm (x y : float) :
  abs (x - y) = abs (y - x).
Proof.
  apply Prim2SF_inj. rewrite !abs_spec, !sub_spec. apply SFsub_abs_comm.
Qed.

Lemma float_square_sub_comm (x y : float) :
  ((x - y) * (x - y) = (y - x) * (y - x))%float.
Proof.
  apply Prim2SF_inj. rewrite !mul_spec. apply SFmul_square_abs.
  rewrite <- !abs_spec. f_equal. apply float_abs_sub_comm.
Qed.

Lemma float_sub_diag (x : float) :
  is_finite x = true -> (x - x)%float = 0%float.
Proof.
  intros Hx%is_finite_spec. apply Prim2SF_inj. rewrite sub_spec.
  unfold SF64sub. by rewrite SFsub_diag.
Qed.

Lemma float_mul_zon_l x y : zon x -> zon (x * y)%float.
Proof. unfold zon. rewrite mul_spec. apply SFmul_zon_l. Qed.

Lemma float_add_zon x y : zon x -> zon y -> zon (x + y)%float.
Proof. unfold zon. rewrite add_spec. apply SFadd_zon. Qed.

Lemma float_sub_zon x y : zon x -> zon y -> zon (x - y)%float.
Proof. unfold zon. rewrite sub_spec. apply SFsub_zon. Qed.

Lemma float_sqrt_zon x : zon x -> zon (PrimFloat.sqrt x).
Proof. unfold zon. rewrite sqrt_spec. apply SFsqrt_zon. Qed.

Lemma float_opp_zon x : zon x -> zon (- x)%float.
Proof. unfold zon. rewrite opp_spec. apply SFopp_zon. Qed.

Lemma float_div_zon x y : zon x -> zon y -> (x / y)%float = nan.
Proof.
  unfold zon. intros Hx Hy. apply Prim2SF_inj. rewrite div_spec.
  unfold SF64div. by rewrite SFdiv_zon.
Qed.

Lemma float_ltb_zon_0 x : zon x -> (x <? 0)%float = false.
Proof.
  unfold zon. intros Hx. rewrite FloatAxioms.ltb_spec. by apply SFltb_zon_0.
Qed.

Lemma trunc_zon x : zon x -> trunc x = 0.
Proof. unfold zon, trunc. by destruct (Prim2SF x). Qed.

Lemma finite_point_coords (p : Point float) :
  finite_point p = true ->
  is_finite (PX p) = true /\ is_finite (PY p) = true /\ is_finite (PZ p) = true.
Proof. unfold finite_point. rewrite !andb_true_iff. tauto. Qed.

Lemma point_has_nan_coord (p : Point float) :
  point_has_nan p = true -> PX p = nan \/ PY p = nan \/ PZ p = nan.
Proof.
  unfold point_has_nan. rewrite !orb_true_iff, !is_nan_eq. tauto.
Qed.

End ZeroOrNaN.

(** ** Equality within epsilon and distances, in binary64 *)

Lemma FloatsEqual_comm (x y eps : float) :
  FloatsEqual x y eps = FloatsEqual y x eps.
Proof. unfold FloatsEqual. cbn. by rewrite float_abs_sub_comm. Qed.

(** [FloatsEqual], [PointsEqual] and [VectorsEqual] do not depend on the
    order of the two values compared: |l - r| and |r - l| are the same
    binary64 number. *)
Theorem FloatsEqual_symmetric :
  (forall x y eps : float, FloatsEqual x y eps = FloatsEqual y x eps) /\
  (forall (p q : Point float) eps, PointsEqual p q eps = PointsEqual q p eps) /\
  (forall (v w : Vector float) eps,
     VectorsEqual v w eps = VectorsEqual w v eps).
Proof.
  split; [apply FloatsEqual_comm|].
  split; intros a b eps; unfold PointsEqual, VectorsEqual.
  - by rewrite (FloatsEqual_comm (PX a)), (FloatsEqual_comm (PY a)),
      (FloatsEqual_comm (PZ a)).
  - by rewrite (FloatsEqual_comm (VX a)), (FloatsEqual_comm (VY a)),
      (FloatsEqual_comm (VZ a)).
Qed.

(** A number is equal to itself within epsilon exactly when it is finite
    and epsilon is positive: an infinity and NaN are not equal to
    themselves (their difference is NaN), and nothing is equal within an
    epsilon that is zero, negative or NaN. *)
Theorem FloatsEqual_reflexive_on_finite (x eps : float) :
  FloatsEqual x x eps = is_finite x && (0 <? eps)%float.
Proof.
  unfold FloatsEqual. cbn.
  destruct (is_finite x) eqn:Hx.
  - by rewrite float_sub_diag.
  - assert (Hn : (x - x)%float = nan).
    { apply Prim2SF_inj. rewrite sub_spec. apply SFsub_diag_nan.
      intros Hf%is_finite_spec. congruence. }
    rewrite Hn. change (abs nan) with nan. by rewrite float_ltb_nan_l.
Qed.

(** Two numbers that [FloatsEqual] finds equal are numbers, and the
    epsilon is positive: the answer is false as soon as an operand is NaN
    or epsilon is not above zero. *)
Theorem FloatsEqual_true_inv (x y eps : float) :
  FloatsEqual x y eps = true ->
  is_nan x = false /\ is_nan y = false /\ (0 <? eps)%float = true.
Proof.
  unfold FloatsEqual. cbn. rewrite !FloatAxioms.ltb_spec, abs_spec, sub_spec.
  intros Hlt.
  assert (Hd : SF64sub (Prim2SF x) (Prim2SF y) <> S754_nan).
  { intros Hd. by rewrite Hd in Hlt. }
  apply SFsub_nan_inv in Hd as [Hx Hy].
  split; [|split].
  - destruct (is_nan x) eqn:Hn; [|done]. by apply is_nan_spec in Hn.
  - destruct (is_nan y) eqn:Hn; [|done]. by apply is_nan_spec in Hn.
  - by apply SFltb_abs_pos in Hlt.
Qed.

(** At 1 and 1.005, equal within 0.01. *)
Lemma FloatsEqual_true_inv_witness :
  is_nan 1 = false /\ is_nan 1.005 = false /\ (0 <? 0.01)%float = true.
Proof. apply (FloatsEqual_true_inv 1 1.005 0.01). reflexivity. Defined.

(** The length of the vector between two points does not depend on which
    of them is the head: the squares of [a - b] and [b - a] are the same
    binary64 number. *)
Theorem Module_MakeVector_symmetric (a b : Point float) :
  Module (MakeVector a b) = Module (MakeVector b a).
Proof.
  unfold Module, MakeVector. cbn.
  by rewrite (float_square_sub_comm (PX a)), (float_square_sub_comm (PY a)),
    (float_square_sub_comm (PZ a)).
Qed.

(** ** Vectors of length zero *)

Lemma UnitVector_zon (v : Vector float) :
  zon (VX v) -> zon (VY v) -> zon (VZ v) -> UnitVector v = nan_vector.
Proof.
  intros Hx Hy Hz. unfold UnitVector, Module, nan_vector. cbn.
  assert (Hm : zon (PrimFloat.sqrt (VX v * VX v + VY v * VY v + VZ v * VZ v))).
  { apply float_sqrt_zon. repeat apply float_add_zon; by apply float_mul_zon_l. }
  by rewrite !float_div_zon.
Qed.

Lemma UnitVector_nan_component (v : Vector float) :
  is_nan (VX v) || is_nan (VY v) || is_nan (VZ v) = true ->
  UnitVector v = nan_vector.
Proof.
  rewrite !orb_true_iff, !is_nan_eq. intros Hv.
  assert (Hm : Module v = nan).
  { unfold Module. cbn [fadd fmul fsqrt float64].
    destruct Hv as [[-> | ->] | ->]; by autorewrite with nan. }
  unfold UnitVector. rewrite Hm. cbn [fdiv float64]. by autorewrite with nan.
Qed.

(** [UnitVector] has no guard for a vector of length zero: when the three
    components are zeros (of either sign) the division is 0 / 0 and every
    component of the result is NaN. *)
Theorem UnitVector_zero_magnitude (v : Vector float) :
  is_zero (VX v) && is_zero (VY v) && is_zero (VZ v) = true ->
  UnitVector v = nan_vector.
Proof.
  rewrite !andb_true_iff. intros [[Hx Hy] Hz].
  apply UnitVector_zon; apply zero_or_nan_spec; by rewrite ?Hx, ?Hy, ?Hz.
Qed.

(** At the vector (0, -0, 0). *)
Lemma UnitVector_zero_magnitude_witness :
  UnitVector (inputs.vector 0 (-0) 0) = nan_vector.
Proof. apply UnitVector_zero_magnitude. reflexivity. Defined.

(** The normal of a sphere at its own center, for a center with finite
    coordinates, is the vector (NaN, NaN, NaN): the vector from the
    center to the point has length zero. *)
Theorem NormalVectorAt_center (s : geom.Sphere float) :
  finite_point (Center s) = true ->
  NormalVectorAt s (Center s) = nan_vector.
Proof.
  intros (Hx & Hy & Hz)%finite_point_coords.
  unfold NormalVectorAt, MakeVector. cbn [fsub float64].
  rewrite !float_sub_diag by done. reflexivity.
Qed.

(** At the sphere of the package's test, center (1, 1, 1). *)
Lemma NormalVectorAt_center_witness :
  NormalVectorAt (inputs.sphere 1 1 1 4) (inputs.point 1 1 1) = nan_vector.
Proof. apply (NormalVectorAt_center (inputs.sphere 1 1 1 4)). reflexivity. Defined.

(** ** Intersections whose parameter is NaN *)

Section NaNIntersections.

#[local] Ltac float_ops :=
  cbn [fadd fsub fmul fdiv fopp fsqrt fltb float64 of_int
       PX PY PZ L0 L1 Center Radius].

Lemma SphereLineIntersection_nan_discriminant
  (s : geom.Sphere float) (l : Line float) :
  discriminant s l = nan ->
  SphereLineIntersection s l = (nan_point, nan, true).
Proof.
  intros Hd. unfold SphereLineIntersection, point_at. rewrite Hd. float_ops.
  change (float64_of_int 0) with 0%float. rewrite float_ltb_nan_l.
  by autorewrite with nan.
Qed.

Lemma discriminant_nan (s : geom.Sphere float) (l : Line float) :
  is_nan (Radius s) || point_has_nan (Center s)
  || point_has_nan (L0 l) || point_has_nan (L1 l) = true ->
  discriminant s l = nan.
Proof.
  rewrite !orb_true_iff, is_nan_eq.
  intros [[[Hr|Hc%point_has_nan_coord]|H0%point_has_nan_coord]
         |H1%point_has_nan_coord];
    destruct s as [[cx cy cz] r], l as [[x0 y0 z0] [x1 y1 z1]];
    unfold discriminant, quad_a, quad_b, quad_c; float_ops;
    cbn [PX PY PZ Center Radius L0 L1] in *;
    repeat match goal with H : _ \/ _ |- _ => destruct H end;
    subst; by autorewrite with nan.
Qed.

Lemma sphere_has_nan_intersection (o : geom.Sphere float) (ray : Line float) :
  sphere_has_nan o = true ->
  SphereLineIntersection o ray = (nan_point, nan, true).
Proof.
  intros Ho. apply SphereLineIntersection_nan_discriminant, discriminant_nan.
  unfold sphere_has_nan in Ho. by rewrite <- orb_assoc, Ho.
Qed.

Lemma ray_has_nan_intersection (o : geom.Sphere float) (ray : Line float) :
  point_has_nan (L0 ray) || point_has_nan (L1 ray) = true ->
  SphereLineIntersection o ray = (nan_point, nan, true).
Proof.
  intros Hr. apply SphereLineIntersection_nan_discriminant, discriminant_nan.
  apply orb_true_iff in Hr as [Hr|Hr]; rewrite Hr; by rewrite ?orb_true_r.
Qed.

End NaNIntersections.

(** A line whose two points are the same point, with finite coordinates,
    meets every sphere, whatever its center and radius: the discriminant
    is a zero or NaN, never negative, so [ok] is true; [t] is 0 / 0 and
    the point returned has three NaN coordinates. *)
Theorem SphereLineIntersection_degenerate_line
  (s : geom.Sphere float) (p : Point float) :
  finite_point p = true ->
  SphereLineIntersection s (mkLine p p) = (nan_point, nan, true).
Proof.
  intros (Hx & Hy & Hz)%finite_point_coords.
  unfold SphereLineIntersection, discriminant, quad_a, quad_b, point_at.
  cbn [L0 L1 fsub fadd fmul fdiv fopp fsqrt fltb float64 of_int].
  rewrite !float_sub_diag by done.
  change (float64_of_int 0) with 0%float.
  change (float64_of_int 2) with 2%float.
  change (float64_of_int 4) with 4%float.
  change (0 * 0 + 0 * 0 + 0 * 0)%float with 0%float.
  change (2 * 0)%float with 0%float. change (4 * 0)%float with 0%float.
  set (b := (0 * _ + 0 * _ + 0 * _)%float).
  assert (Hb : zon b).
  { repeat apply float_add_zon; by apply float_mul_zon_l. }
  set (d := (b * b - 0 * _)%float).
  assert (Hd : zon d).
  { apply float_sub_zon; by apply float_mul_zon_l. }
  rewrite (float_ltb_zon_0 d Hd).
  assert (Hn : zon (- b - PrimFloat.sqrt d)%float).
  { apply float_sub_zon; [by apply float_opp_zon|by apply float_sqrt_zon]. }
  rewrite (float_div_zon _ 0%float Hn zon_zero).
  by autorewrite with nan.
Qed.

(** At the sphere of the package's tests and the line from (1, 1, 1) to
    itself. *)
Lemma SphereLineIntersection_degenerate_line_witness :
  SphereLineIntersection (inputs.sphere 7 5 0 2) (inputs.line 1 1 1 1 1 1)
  = (nan_point, nan, true).
Proof.
  apply (SphereLineIntersection_degenerate_line (inputs.sphere 7 5 0 2)
           (inputs.point 1 1 1)).
  reflexivity.
Defined.

(** When the radius, a coordinate of the center or a coordinate of one of
    the two points of the line is NaN, [SphereLineIntersection] answers
    that the line meets the sphere: the discriminant is NaN, which is not
    below zero, and [t] and the point are NaN. *)
Theorem SphereLineIntersection_nan_input
  (s : geom.Sphere float) (l : Line float) :
  is_nan (Radius s) || point_has_nan (Center s)
  || point_has_nan (L0 l) || point_has_nan (L1 l) = true ->
  SphereLineIntersection s l = (nan_point, nan, true).
Proof.
  intros Hnan. by apply SphereLineIntersection_nan_discriminant, discriminant_nan.
Qed.

(** At a line whose second point has a NaN ordinate. *)
Lemma SphereLineIntersection_nan_input_witness :
  SphereLineIntersection (inputs.sphere 7 5 0 2) (inputs.line 0 0 0 4 nan 0)
  = (nan_point, nan, true).
Proof.
  apply (SphereLineIntersection_nan_input (inputs.sphere 7 5 0 2)
           (inputs.line 0 0 0 4 nan 0)).
  reflexivity.
Defined.

(** ** The extent of a plane that passes the validation

    In binary64 the difference of two numbers in order is positive: the
    exact difference of the aligned mantissas is a positive integer at an
    exponent of the format, and rounding such a number gives neither a
    zero nor a negative number. *)

Section Subtraction.
Variables (prec emax : Z).
Hypothesis Hprec : 0 < prec.

#[local] Abbreviation emin := (SpecFloat.emin prec emax).
#[local] Abbreviation fexp := (SpecFloat.fexp prec emax).

Lemma digits2_pos_bounds (m : positive) :
  2 ^ (Z.pos (digits2_pos m) - 1) <= Z.pos m < 2 ^ Z.pos (digits2_pos m).
Proof.
  induction m as [m IH|m IH|]; cbn [digits2_pos].
  - rewrite Pos2Z.inj_succ, (Pos2Z.inj_xI m).
    replace (Z.succ (Z.pos (digits2_pos m)) - 1) with
      (Z.succ (Z.pos (digits2_pos m) - 1)) by lia.
    rewrite !Z.pow_succ_r by lia. revert IH.
    generalize (2 ^ (Z.pos (digits2_pos m) - 1)) (2 ^ Z.pos (digits2_pos m)).
    intros; lia.
  - rewrite Pos2Z.inj_succ, (Pos2Z.inj_xO m).
    replace (Z.succ (Z.pos (digits2_pos m)) - 1) with
      (Z.succ (Z.pos (digits2_pos m) - 1)) by lia.
    rewrite !Z.pow_succ_r by lia. revert IH.
    generalize (2 ^ (Z.pos (digits2_pos m) - 1)) (2 ^ Z.pos (digits2_pos m)).
    intros; lia.
  - simpl. lia.
Qed.

(** What a valid mantissa and exponent satisfy. *)
Lemma bounded_canonical (m : positive) (e : Z) :
  SpecFloat.bounded prec emax m e = true ->
  emin <= e /\ Z.pos (digits2_pos m) <= prec /\
  (emin < e -> Z.pos (digits2_pos m) = prec).
Proof.
  unfold SpecFloat.bounded, canonical_mantissa, SpecFloat.fexp.
  intros [He _]%andb_true_iff. apply Z.eqb_eq in He. lia.
Qed.

Lemma shl_align_value (m : positive) (e e' : Z) :
  e' <= e -> Z.pos (fst (shl_align m e e')) = Z.pos m * 2 ^ (e - e').
Proof.
  intros Hle. unfold shl_align.
  destruct (e' - e) as [|d|d] eqn:Hd; cbn [fst].
  - replace (e - e') with 0 by lia. lia.
  - lia.
  - replace (e - e') with (Z.pos d) by lia.
    change (Pos.iter xO m d) with (shift_pos d m).
    rewrite shift_pos_correct. change (Z.pow_pos 2 d) with (2 ^ Z.pos d). lia.
Qed.

Lemma shl_align_exponent (m : positive) (e e' : Z) :
  emin <= e -> emin <= e' -> emin <= snd (shl_align m e e').
Proof. intros He He'. unfold shl_align. by destruct (e' - e). Qed.

(** A larger exponent is a larger magnitude. *)
Lemma bounded_magnitude (m1 m2 : positive) (e1 e2 : Z) :
  SpecFloat.bounded prec emax m1 e1 = true ->
  SpecFloat.bounded prec emax m2 e2 = true ->
  e1 < e2 -> Z.pos m1 < Z.pos m2 * 2 ^ (e2 - e1).
Proof.
  intros (He1 & Hd1 & _)%bounded_canonical (He2 & _ & Hd2)%bounded_canonical Hlt.
  specialize (Hd2 ltac:(lia)).
  pose proof (digits2_pos_bounds m1) as [_ Hu].
  pose proof (digits2_pos_bounds m2) as [Hl _]. rewrite Hd2 in Hl.
  assert (H1 : 2 ^ Z.pos (digits2_pos m1) <= 2 ^ prec)
    by (apply Z.pow_le_mono_r; lia).
  assert (H2 : 2 ^ 1 <= 2 ^ (e2 - e1)) by (apply Z.pow_le_mono_r; lia).
  assert (H3 : 2 ^ prec = 2 ^ (prec - 1) * 2 ^ 1).
  { rewrite <- Z.pow_add_r by lia. f_equal. lia. }
  assert (H4 : 0 < 2 ^ (prec - 1)) by (apply Z.pow_pos_nonneg; lia).
  nia.
Qed.

(** The exact difference of the aligned mantissas is positive. *)
Lemma aligned_difference_pos sx mx ex sy my ey :
  SpecFloat.bounded prec emax mx ex = true ->
  SpecFloat.bounded prec emax my ey = true ->
  SFltb (S754_finite sx mx ex) (S754_finite sy my ey) = true ->
  let ez := Z.min ey ex in
  0 < cond_Zopp sy (Z.pos (fst (shl_align my ey ez)))
      - cond_Zopp sx (Z.pos (fst (shl_align mx ex ez))).
Proof.
  intros Hx Hy Hlt ez.
  rewrite !shl_align_value by lia.
  assert (Hpx : 0 < 2 ^ (ex - ez)) by (apply Z.pow_pos_nonneg; lia).
  assert (Hpy : 0 < 2 ^ (ey - ez)) by (apply Z.pow_pos_nonneg; lia).
  unfold SFltb, SFcompare in Hlt.
  destruct sx, sy; cbn [cond_Zopp]; try done; [| nia |].
  - (* both negative *)
    destruct (Z.compare_spec ex ey) as [Heq|Hl|Hg]; try done.
    + subst ey. replace (ex - ez) with 0 by lia. rewrite Z.pow_0_r.
      change (Pos.compare_cont Eq mx my) with (Pos.compare mx my) in Hlt.
      destruct (Pos.compare_spec mx my); try done. lia.
    + pose proof (bounded_magnitude my mx ey ex Hy Hx Hg).
      replace (ey - ez) with 0 by lia. replace (ex - ez) with (ex - ey) by lia.
      lia.
  - (* both positive *)
    destruct (Z.compare_spec ex ey) as [Heq|Hl|Hg]; try done.
    + subst ey. replace (ex - ez) with 0 by lia. rewrite Z.pow_0_r.
      change (Pos.compare_cont Eq mx my) with (Pos.compare mx my) in Hlt.
      destruct (Pos.compare_spec mx my); try done. lia.
    + pose proof (bounded_magnitude mx my ex ey Hx Hy Hl).
      replace (ex - ez) with 0 by lia. replace (ey - ez) with (ey - ex) by lia.
      lia.
Qed.

Lemma shr_1_m (mrs : shr_record) :
  0 <= shr_m mrs -> shr_m (shr_1 mrs) = shr_m mrs / 2.
Proof.
  destruct mrs as [m r s]. cbn [shr_m]. intros Hm.
  rewrite <- Z.div2_div. by destruct m as [|[p|p|]|p].
Qed.

Lemma iter_shr_m (q : positive) : forall mrs : shr_record,
  0 <= shr_m mrs ->
  shr_m (SpecFloat.iter_pos shr_1 q mrs) = shr_m mrs / 2 ^ Z.pos q.
Proof.
  assert (Hpow : forall q : positive, 0 < 2 ^ Z.pos q)
    by (intros; apply Z.pow_pos_nonneg; lia).
  induction q as [q IH|q IH|]; intros mrs Hm; cbn [SpecFloat.iter_pos].
  - assert (H1 : 0 <= shr_m (shr_1 mrs))
      by (rewrite shr_1_m by done; apply Z.div_pos; lia).
    assert (H2 : 0 <= shr_m (SpecFloat.iter_pos shr_1 q (shr_1 mrs))).
    { rewrite IH by done. apply Z.div_pos; [done|apply Hpow]. }
    rewrite IH, IH, shr_1_m by done.
    pose proof (Hpow q).
    rewrite !Z.div_div by lia. f_equal.
    replace (Z.pos q~1) with (1 + Z.pos q + Z.pos q) by lia.
    rewrite !Z.pow_add_r by lia. change (2 ^ 1) with 2. ring.
  - assert (H2 : 0 <= shr_m (SpecFloat.iter_pos shr_1 q mrs)).
    { rewrite IH by done. apply Z.div_pos; [done|apply Hpow]. }
    rewrite IH, IH by done.
    pose proof (Hpow q).
    rewrite !Z.div_div by lia. f_equal.
    replace (Z.pos q~0) with (Z.pos q + Z.pos q) by lia.
    rewrite !Z.pow_add_r by lia. done.
  - rewrite shr_1_m by done. done.
Qed.

Lemma shr_record_of_loc_m (m : Z) (l : location) :
  shr_m (shr_record_of_loc m l) = m.
Proof. by destruct l as [|[]]. Qed.

(** Shifting to the exponent of the format keeps a positive mantissa
    positive, for an exponent that is not below the least one. *)
Lemma shr_fexp_pos (p : positive) (e : Z) (l : location) :
  emin <= e ->
  0 < shr_m (fst (shr_fexp prec emax (Z.pos p) e l)) /\
  emin <= snd (shr_fexp prec emax (Z.pos p) e l).
Proof.
  intros He. unfold shr_fexp, shr. cbn [Zdigits2].
  destruct (fexp (Z.pos (digits2_pos p) + e) - e) as [|q|q] eqn:Hn;
    cbn [fst snd]; rewrite ?shr_record_of_loc_m; [lia| |lia].
  unfold SpecFloat.fexp in Hn.
  rewrite iter_shr_m by (rewrite shr_record_of_loc_m; lia).
  rewrite shr_record_of_loc_m. split; [|lia].
  pose proof (digits2_pos_bounds p) as [Hl _].
  assert (Hq : 2 ^ Z.pos q <= 2 ^ (Z.pos (digits2_pos p) - 1))
    by (apply Z.pow_le_mono_r; lia).
  apply Z.div_str_pos. split; [apply Z.pow_pos_nonneg; lia|lia].
Qed.

Lemma round_nearest_even_pos (m : Z) (l : location) :
  0 < m -> 0 < round_nearest_even m l.
Proof.
  intros Hm. destruct l as [|[]]; simpl; [done| |done|lia].
  destruct (Z.even m); lia.
Qed.

(** The sign of a rounded positive mantissa is the sign given, and the
    result is neither a zero nor NaN. *)
Lemma binary_round_aux_signed s (p : positive) (e : Z) (l : location) :
  emin <= e -> SFsigned s (binary_round_aux prec emax s (Z.pos p) e l).
Proof.
  intros He. unfold binary_round_aux.
  pose proof (shr_fexp_pos p e l He) as [Hm1 He1].
  destruct (shr_fexp prec emax (Z.pos p) e l) as [mrs1 e1]. cbn [fst snd] in *.
  pose proof (round_nearest_even_pos (shr_m mrs1) (loc_of_shr_record mrs1) Hm1)
    as Hr.
  destruct (round_nearest_even (shr_m mrs1) (loc_of_shr_record mrs1))
    as [|r|r]; [lia| |lia].
  pose proof (shr_fexp_pos r e1 loc_Exact He1) as [Hm2 _].
  destruct (shr_fexp prec emax (Z.pos r) e1 loc_Exact) as [mrs2 e2].
  cbn [fst] in Hm2.
  destruct (shr_m mrs2) as [|m2|m2]; [lia| |lia].
  by destruct (e2 <=? emax - prec).
Qed.

Lemma binary_round_signed s (p : positive) (e : Z) :
  emin <= e -> SFsigned s (binary_round prec emax s p e).
Proof.
  intros He. unfold binary_round.
  pose proof (shl_align_exponent p e
                (fexp (Z.pos (digits2_pos p) + e)) He) as Hez.
  destruct (shl_align p e _) as [mz ez]. cbn [snd] in Hez.
  apply binary_round_aux_signed. apply Hez. unfold SpecFloat.fexp. lia.
Qed.

(** The difference of two valid numbers in order is positive. *)
Lemma SFsub_ordered (x y : spec_float) :
  SpecFloat.valid_binary prec emax x = true ->
  SpecFloat.valid_binary prec emax y = true ->
  SFltb x y = true ->
  SFltb (S754_zero false) (SFsub prec emax y x) = true.
Proof.
  destruct x as [sx|sx| |sx mx ex], y as [sy|sy| |sy my ey];
    cbn [SpecFloat.valid_binary]; intros Hx Hy Hlt; try done;
    try (by destruct sx); try (by destruct sy); try (by destruct sx, sy).
  pose proof (aligned_difference_pos sx mx ex sy my ey Hx Hy Hlt) as Hz.
  apply bounded_canonical in Hx as [Hex _], Hy as [Hey _].
  unfold SFsub. cbv zeta in Hz.
  destruct (cond_Zopp sy _ - cond_Zopp sx _) as [|z|z]; [lia| |lia].
  cbn [binary_normalize].
  pose proof (binary_round_signed false z (Z.min ey ex) ltac:(lia)) as Hs.
  destruct (binary_round prec emax false z (Z.min ey ex)); simpl in Hs;
    try done; by subst.
Qed.

End Subtraction.

Section Extent.

(** In binary64: [x < y] gives [0 < y - x]. *)
Lemma float_sub_ordered (x y : float) :
  (x <? y)%float = true -> (0 <? y - x)%float = true.
Proof.
  rewrite !FloatAxioms.ltb_spec, sub_spec. intros Hlt.
  apply (SFsub_ordered prec emax); [done|apply Prim2SF_valid..|done].
Qed.

Lemma Plane2d_extent_pos (p : Plane2d float) :
  plane_nan_free p = true -> Plane2d_invalid p = false ->
  (0 <? Dx p)%float = true /\ (0 <? Dy p)%float = true.
Proof.
  intros Hnan Hv. pose proof (plane_passes_spec p Hnan Hv) as Hok.
  unfold spec_plane_ok in Hok. apply andb_true_iff in Hok as [Hx Hy].
  unfold Dx, Dy. cbn [fsub float64]. split; by apply float_sub_ordered.
Qed.

Lemma trunc_nonneg (f : float) : (0 <? f)%float = true -> 0 <= trunc f.
Proof.
  rewrite FloatAxioms.ltb_spec. unfold trunc, SFltb.
  change (Prim2SF 0) with (S754_zero false).
  destruct (Prim2SF f) as [s|s| |s m e]; simpl; try done.
  destruct s; [done|]. intros _.
  destruct (Z.leb_spec 0 e).
  - assert (0 < 2 ^ e) by (apply Z.pow_pos_nonneg; lia). lia.
  - apply Z.div_pos; [lia|]. apply Z.pow_pos_nonneg; lia.
Qed.

Lemma valid_size (s : Scene) :
  nan_free s = true -> Validate s = None -> 0 <= width s /\ 0 <= height s.
Proof.
  intros Hnan (_ & _ & _ & _ & Hnear & _)%Validate_None.
  assert (Hn : plane_nan_free (Near (ViewFrustum s)) = true).
  { unfold nan_free in Hnan. rewrite !andb_true_iff in Hnan. tauto. }
  destruct (Plane2d_extent_pos _ Hn Hnear) as [Hx Hy].
  split; by apply trunc_nonneg.
Qed.

End Extent.

(** A plane that passes [Plane2d.Validate] and whose corners are numbers
    has a width [Dx] and a height [Dy] above zero, in binary64 as the
    code computes them: the subtraction of two distinct numbers never
    rounds to zero and never changes sign, whatever their magnitudes. *)
Theorem Plane2d_valid_positive_extent (p : Plane2d float) :
  plane_nan_free p = true -> Plane2d_invalid p = false ->
  (0 <? Dx p)%float = true /\ (0 <? Dy p)%float = true.
Proof. apply Plane2d_extent_pos. Qed.

(** At the near plane of [scene_six_rows]. *)
Lemma Plane2d_valid_positive_extent_witness :
  (0 <? Dx (inputs.plane 0 6 2 0 0))%float = true /\
  (0 <? Dy (inputs.plane 0 6 2 0 0))%float = true.
Proof.
  apply (Plane2d_valid_positive_extent (inputs.plane 0 6 2 0 0)).
  - reflexivity.
  - reflexivity.
Defined.

(** ** More of the geometry kernel in exact arithmetic *)

Section ExactMore.
#[local] Open Scope R_scope.

#[local] Ltac reals :=
  cbn [fadd fsub fmul fdiv fopp fsqrt fabs fltb fleb of_int MaxFloat64 exact
       PX PY PZ VX VY VZ L0 L1 Center Radius] in *.

(** The constant coefficient is the squared distance from the origin of
    the line to the center, less the squared radius; the linear one is
    twice the product of the direction with the vector from the center to
    the origin of the line. *)
Lemma quad_c_distance (s : geom.Sphere R) (l : Line R) :
  quad_c s l
  = Module (MakeVector (L0 l) (Center s)) * Module (MakeVector (L0 l) (Center s))
    - Radius s * Radius s.
Proof.
  rewrite Module_sq.
  destruct s as [[cx cy cz] r], l as [[x0 y0 z0] [x1 y1 z1]].
  unfold quad_c, MakeVector. reals. ring.
Qed.

Lemma quad_b_dot (s : geom.Sphere R) (l : Line R) :
  quad_b s l
  = 2 * DotProduct (MakeVector (L1 l) (L0 l)) (MakeVector (L0 l) (Center s)).
Proof.
  destruct s as [[cx cy cz] r], l as [[x0 y0 z0] [x1 y1 z1]].
  unfold quad_b, DotProduct, MakeVector. reals. ring.
Qed.

Lemma near_root_negative (a b c : R) :
  0 < a -> 0 <= b * b - 4 * a * c ->
  (- b - sqrt (b * b - 4 * a * c)) / (2 * a) < 0 <-> 0 < b \/ c < 0.
Proof.
  intros Ha Hd. set (sd := sqrt (b * b - 4 * a * c)).
  assert (Hsd : 0 <= sd) by apply sqrt_pos.
  assert (Hsq : sd * sd = b * b - 4 * a * c) by by apply sqrt_sqrt.
  assert (Hiff : (- b - sd) / (2 * a) < 0 <-> - b - sd < 0).
  { split; intros Hlt.
    - apply Rmult_lt_compat_r with (r := 2 * a) in Hlt; [|lra].
      replace ((- b - sd) / (2 * a) * (2 * a)) with (- b - sd) in Hlt
        by (field; lra). lra.
    - apply Rmult_lt_reg_r with (r := 2 * a); [lra|].
      replace ((- b - sd) / (2 * a) * (2 * a)) with (- b - sd)
        by (field; lra). lra. }
  rewrite Hiff. split.
  - intros Hlt. destruct (Rlt_dec 0 b) as [|Hb]; [by left|right].
    apply Rnot_lt_le in Hb. assert (Hbb : b * b < sd * sd) by nra. nra.
  - intros [Hb|Hc]; [lra|].
    assert (Hbb : b * b < sd * sd) by nra.
    destruct (Rlt_dec (- b) sd) as [|Hn]; [lra|].
    apply Rnot_lt_le in Hn. nra.
Qed.

Lemma Module_pos (v : Vector R) : Module v <> 0 -> 0 < Module v.
Proof. pose proof (Module_nonneg v). lra. Qed.

Lemma DotProduct_UnitVector (v w : Vector R) :
  Module v <> 0 -> Module w <> 0 ->
  DotProduct (UnitVector v) (UnitVector w)
  = DotProduct v w / (Module v * Module w).
Proof.
  intros Hv Hw. unfold DotProduct, UnitVector. reals. field. done.
Qed.

Lemma cauchy_schwarz (v w : Vector R) :
  DotProduct v w * DotProduct v w
  <= (Module v * Module v) * (Module w * Module w).
Proof.
  rewrite !Module_sq. destruct v as [a b c], w as [x y z].
  unfold DotProduct. reals.
  assert (H1 : 0 <= (a * y - b * x) * (a * y - b * x)).
  { generalize (a * y - b * x). intros u. nra. }
  assert (H2 : 0 <= (a * z - c * x) * (a * z - c * x)).
  { generalize (a * z - c * x). intros u. nra. }
  assert (H3 : 0 <= (b * z - c * y) * (b * z - c * y)).
  { generalize (b * z - c * y). intros u. nra. }
  replace ((a * a + b * b + c * c) * (x * x + y * y + z * z))
    with ((a * x + b * y + c * z) * (a * x + b * y + c * z)
          + (a * y - b * x) * (a * y - b * x)
          + (a * z - c * x) * (a * z - c * x)
          + (b * z - c * y) * (b * z - c * y)) by ring.
  lra.
Qed.

Variables (s : geom.Sphere R) (l : Line R) (k : R).

Lemma quad_a_rescale : quad_a (rescale l k) = k * k * quad_a l.
Proof.
  destruct l as [[x0 y0 z0] [x1 y1 z1]].
  unfold quad_a, rescale, point_at. reals. ring.
Qed.

Lemma quad_b_rescale : quad_b s (rescale l k) = k * quad_b s l.
Proof.
  destruct s as [[cx cy cz] r], l as [[x0 y0 z0] [x1 y1 z1]].
  unfold quad_b, rescale, point_at. reals. ring.
Qed.

Lemma discriminant_rescale :
  discriminant s (rescale l k) = k * k * discriminant s l.
Proof.
  unfold discriminant. rewrite quad_a_rescale, quad_b_rescale.
  change (quad_c s (rescale l k)) with (quad_c s l). reals. ring.
Qed.

End ExactMore.

(** Exact.  For a line with distinct points and a radius that is not
    negative: a line that starts strictly inside the sphere meets it, and
    the parameter [t] of the point returned is negative exactly when the
    line starts strictly inside the sphere or its direction points away
    from the center (its product with the vector from the center to the
    origin of the line is positive).  The point returned is then behind
    the origin of the line, not between its two points: the function
    has no test on the sign of [t]. *)
Theorem exact_intersection_behind_origin (s : geom.Sphere R) (l : Line R) :
  L0 l <> L1 l -> (0 <= Radius s)%R ->
  let inside :=
    (Module (MakeVector (L0 l) (Center s)) < Radius s)%R in
  let away :=
    (0 < DotProduct (MakeVector (L1 l) (L0 l)) (MakeVector (L0 l) (Center s)))%R in
  match SphereLineIntersection s l with
  | (p, t, ok) =>
      (inside -> ok = true) /\
      (ok = true -> (t < 0)%R <-> away \/ inside)
  end.
Proof.
  intros Hne Hr inside away. pose proof (quad_a_pos l Hne) as Ha.
  pose proof (quad_c_distance s l) as Hc. pose proof (quad_b_dot s l) as Hb.
  pose proof (Module_nonneg (MakeVector (L0 l) (Center s))) as Hm.
  assert (Hin : inside <-> (quad_c s l < 0)%R).
  { unfold inside. rewrite Hc. split; intros; nra. }
  assert (Haw : away <-> (0 < quad_b s l)%R).
  { unfold away. rewrite Hb. split; intros; lra. }
  unfold SphereLineIntersection, discriminant.
  cbn [fadd fsub fmul fdiv fopp fsqrt fltb of_int exact].
  destruct (Rlt_dec _ 0) as [Hd|Hd].
  - split; [|done]. intros Hi%Hin.
    assert (0 <= quad_b s l * quad_b s l)%R by nra. nra.
  - split; [done|]. intros _. apply Rnot_lt_le in Hd.
    rewrite Hin, Haw. by apply near_root_negative.
Qed.

(** At the sphere of center (0, 0, -5) and radius 1 and the line from
    the origin to (0, 0, 10), which points away from it. *)
Lemma exact_intersection_behind_origin_witness :
  match SphereLineIntersection (inputs.exact_sphere 0 0 (-5) 1)
                               (inputs.exact_line 0 0 0 0 0 10) with
  | (p, t, ok) =>
      ((Module (MakeVector (inputs.exact_point 0 0 0)
                           (inputs.exact_point 0 0 (-5))) < 1)%R -> ok = true) /\
      (ok = true ->
       (t < 0)%R <->
       (0 < DotProduct (MakeVector (inputs.exact_point 0 0 10)
                                   (inputs.exact_point 0 0 0))
                       (MakeVector (inputs.exact_point 0 0 0)
                                   (inputs.exact_point 0 0 (-5))))%R \/
       (Module (MakeVector (inputs.exact_point 0 0 0)
                           (inputs.exact_point 0 0 (-5))) < 1)%R)
  end.
Proof.
  apply (exact_intersection_behind_origin (inputs.exact_sphere 0 0 (-5) 1)
           (inputs.exact_line 0 0 0 0 0 10)).
  - simpl. intros [= H]. lra.
  - simpl. lra.
Defined.

(** Exact.  The product of the unit vectors of two vectors that are not
    zero is between -1 and 1: the factor [computeObjectColorAt] takes
    from the unit vector to the light and the normal is a cosine. *)
Theorem exact_DotProduct_of_units_bounded (v w : Vector R) :
  Module v <> 0%R -> Module w <> 0%R ->
  (-1 <= DotProduct (UnitVector v) (UnitVector w) <= 1)%R.
Proof.
  intros Hv Hw. rewrite DotProduct_UnitVector by done.
  pose proof (Module_pos v Hv) as Hpv. pose proof (Module_pos w Hw) as Hpw.
  pose proof (cauchy_schwarz v w) as Hcs.
  set (d := DotProduct v w) in *. set (m := (Module v * Module w)%R).
  assert (Hm : (0 < m)%R) by (unfold m; nra).
  assert (Hsq : (d * d <= m * m)%R) by (unfold m; nra).
  assert (Hd : (- m <= d <= m)%R) by nra.
  split.
  - apply Rmult_le_reg_r with (r := m); [done|].
    replace (d / m * m)%R with d by (field; lra). lra.
  - apply Rmult_le_reg_r with (r := m); [done|].
    replace (d / m * m)%R with d by (field; lra). lra.
Qed.

(** At the vectors (3, 4, 0) and (1, 0, 0). *)
Lemma exact_DotProduct_of_units_bounded_witness :
  (-1 <= DotProduct (UnitVector (mkVector 3 4 0))
                    (UnitVector (mkVector 1 0 0)) <= 1)%R.
Proof.
  apply (exact_DotProduct_of_units_bounded (mkVector 3 4 0)%R (mkVector 1 0 0)%R).
  - unfold Module. simpl. apply Rgt_not_eq, sqrt_lt_R0. lra.
  - unfold Module. simpl. apply Rgt_not_eq, sqrt_lt_R0. lra.
Defined.

(** Exact.  Moving the second point of a line along the line, to the
    parameter [k] > 0, changes neither whether the sphere is met nor the
    point returned; the parameter [t] is divided by [k].  So the
    parameters of two spheres met by the same ray keep their order, and
    the depth of the far plane decides no hit. *)
Theorem exact_intersection_scale_invariant
  (s : geom.Sphere R) (l : Line R) (k : R) :
  L0 l <> L1 l -> (0 < k)%R ->
  match SphereLineIntersection s l, SphereLineIntersection s (rescale l k) with
  | (p, t, ok), (p', t', ok') =>
      ok' = ok /\ (ok = true -> p' = p /\ t' = (t / k)%R)
  end.
Proof.
  intros Hne Hk. pose proof (quad_a_pos l Hne) as Ha.
  unfold SphereLineIntersection.
  rewrite discriminant_rescale, quad_a_rescale, quad_b_rescale.
  cbn [fadd fsub fmul fdiv fopp fsqrt fltb of_int exact].
  set (d := discriminant s l). set (a := quad_a l) in *. set (b := quad_b s l).
  assert (Hkk : (0 < k * k)%R) by nra.
  destruct (Rlt_dec d 0) as [Hd|Hd].
  - destruct (Rlt_dec (k * k * d) 0) as [_|Hn]; [done|]. nra.
  - apply Rnot_lt_le in Hd.
    destruct (Rlt_dec (k * k * d) 0) as [Hn|_]; [nra|].
    split; [done|]. intros _.
    assert (Hs : sqrt (k * k * d) = (k * sqrt d)%R).
    { rewrite sqrt_mult by lra. rewrite sqrt_square by lra. done. }
    rewrite Hs.
    assert (Ht : ((- (k * b) - k * sqrt d) / (2 * (k * k * a))
                  = (- b - sqrt d) / (2 * a) / k)%R) by (field; lra).
    rewrite Ht. split; [|done].
    set (t := ((- b - sqrt d) / (2 * a))%R).
    destruct l as [[x0 y0 z0] [x1 y1 z1]].
    clearbody t. unfold rescale. unfold point_at.
    cbn [fadd fsub fmul fdiv exact PX PY PZ L0 L1].
    f_equal; field; lra.
Qed.

(** At the first line of the package's test table, its second point
    moved twice as far. *)
Lemma exact_intersection_scale_invariant_witness :
  match SphereLineIntersection (inputs.exact_sphere 7 5 0 2)
                               (inputs.exact_line 0 0 0 4 2 0),
        SphereLineIntersection (inputs.exact_sphere 7 5 0 2)
                               (rescale (inputs.exact_line 0 0 0 4 2 0) 2%R) with
  | (p, t, ok), (p', t', ok') =>
      ok' = ok /\ (ok = true -> p' = p /\ t' = (t / 2)%R)
  end.
Proof.
  apply (exact_intersection_scale_invariant (inputs.exact_sphere 7 5 0 2)
           (inputs.exact_line 0 0 0 4 2 0) 2%R).
  - simpl. intros [= H]. lra.
  - lra.
Defined.

(** ** The errors of the validation *)

Section Errors.

Lemma Color_Validate_channels (c : Color) :
  Color_Validate c = (if channels_valid c then None else Some (color_error c)).
Proof. reflexivity. Qed.

Lemma Sphere_Validate_Some (o : raytracer.Sphere) (e : error) :
  Sphere_Validate o = Some e ->
  (e = ErrNegativeRadius /\ (Radius (Sphere_ o) <? 0)%float = true) \/
  (e = ErrWrap "invalid sphere" (color_error (Color_ o)) /\
   (Radius (Sphere_ o) <? 0)%float = false /\
   channels_valid (Color_ o) = false).
Proof.
  unfold Sphere_Validate, geom_Sphere_Validate, Sphere_invalid.
  rewrite Color_Validate_channels.
  cbn [fltb float64 of_int]. change (float64_of_int 0) with 0%float.
  destruct (Radius (Sphere_ o) <? 0)%float; [intros [= <-]; by left|].
  destruct (channels_valid (Color_ o)); [done|].
  intros [= <-]. by right.
Qed.

Lemma Validate_objects_Some (os : list raytracer.Sphere) (e : error) :
  Validate_objects os = Some e ->
  exists pre o post e',
    os = pre ++ o :: post /\ Validate_objects pre = None /\
    Sphere_Validate o = Some e' /\ e = ErrWrap "invalid scene object" e'.
Proof.
  induction os as [|o os IH]; simpl; [done|].
  destruct (Sphere_Validate o) as [e'|] eqn:Ho.
  - intros [= <-]. by exists [], o, os, e'.
  - intros (pre & o' & post & e' & -> & Hpre & Ho' & ->)%IH.
    exists (o :: pre), o', post, e'. repeat split; [|done]. simpl. by rewrite Ho.
Qed.

Lemma isColorChannelValid_finite (c : float) :
  isColorChannelValid c = true -> is_finite c = true.
Proof.
  unfold isColorChannelValid. cbn [fleb float64 of_int].
  change (float64_of_int 0) with 0%float.
  change (float64_of_int 1) with 1%float.
  rewrite andb_true_iff, !FloatAxioms.leb_spec. intros [H0 H1].
  apply is_finite_spec. by apply SFleb_unit_finite.
Qed.

End Errors.

(** [Scene.Validate] returns the error [e] exactly when [e] is the error
    of the first check that fails, the checks being taken in the order of
    the source: every object in sequence (its radius, then its color),
    the background color, the diffuse coefficient, the near plane, the
    far plane.  The error carries the values that failed (the channels of
    the color, the coefficient, the plane) inside the names of the
    entities they belong to; an error is never reported for a check that
    passes, nor for a later check while an earlier one fails. *)
Theorem Validate_reports_first_violation (s : Scene) (e : error) :
  Validate s = Some e <-> first_violation s e.
Proof.
  split.
  - unfold Validate. intros Hv.
    destruct (Validate_objects (Objects s)) as [e1|] eqn:Hobjs.
    + injection Hv as <-.
      apply Validate_objects_Some in Hobjs
        as (pre & o & post & e2 & Hos & Hpre%Validate_objects_None & Ho & ->).
      apply Sphere_Validate_Some in Ho as [[-> Hr]|(-> & Hr & Hc)].
      * by eapply violation_radius.
      * by eapply violation_object_color.
    + apply Validate_objects_None in Hobjs.
      rewrite Color_Validate_channels in Hv.
      destruct (channels_valid (Bg s)) eqn:Hbg;
        [|injection Hv as <-; by apply violation_background].
      revert Hv. cbn [fltb float64 of_int].
      change (float64_of_int 0) with 0%float.
      change (float64_of_int 1) with 1%float.
      destruct ((Kd s <? 0)%float || (1 <? Kd s)%float) eqn:Hkd;
        [intros [= <-]; by apply violation_diffuse|].
      unfold Frustum_Validate, Plane2d_Validate.
      destruct (Plane2d_invalid (Near (ViewFrustum s))) eqn:Hnear;
        [intros [= <-]; by apply violation_near|].
      destruct (Plane2d_invalid (Far (ViewFrustum s))) eqn:Hfar; [|done].
      intros [= <-]. by apply violation_far.
  - pose proof (Validate_order s) as [Hobj Hrest].
    assert (Hcol : forall c, channels_valid c = false ->
                             Color_Validate c = Some (color_error c)).
    { intros c Hc. by rewrite Color_Validate_channels, Hc. }
    assert (Hok : forall c, channels_valid c = true -> Color_Validate c = None).
    { intros c Hc. by rewrite Color_Validate_channels, Hc. }
    intros [pre o post Hos Hpre Hr|pre o post Hos Hpre Hr Hc|Hobjs Hbg
            |Hobjs Hbg Hkd|Hobjs Hbg Hkd Hnear|Hobjs Hbg Hkd Hnear Hfar].
    + by apply (Hobj pre o post).
    + apply (Hobj pre o post); [done..|]. by apply Hcol.
    + apply (Hrest Hobjs). by apply Hcol.
    + by apply (Hrest Hobjs); [apply Hok|].
    + by apply (Hrest Hobjs); [apply Hok|..].
    + by apply (Hrest Hobjs); [apply Hok|..].
Qed.

(** In [scene_three_defects] the error is that of the color of the second
    object: the radius of the third object and the diffuse coefficient
    are not reported. *)
Lemma Validate_reports_first_violation_witness :
  first_violation inputs.scene_three_defects
    (ErrWrap "invalid scene object"
       (ErrWrap "invalid sphere" (ErrColorRange 0 1.5 0))).
Proof.
  apply (proj1 (Validate_reports_first_violation inputs.scene_three_defects _)).
  reflexivity.
Defined.

(** A color that passes [Color.Validate] has three channels that are
    finite numbers: NaN and the infinities are rejected (and a zero of
    either sign is accepted). *)
Theorem Color_Validate_channels_finite (c : Color) :
  Color_Validate c = None ->
  is_finite (CR c) = true /\ is_finite (CG c) = true /\ is_finite (CB c) = true.
Proof.
  rewrite Color_Validate_channels. unfold channels_valid.
  destruct (isColorChannelValid (CR c)) eqn:Hr; [|done].
  destruct (isColorChannelValid (CG c)) eqn:Hg; [|done].
  destruct (isColorChannelValid (CB c)) eqn:Hb; [|done].
  intros _. repeat split; by apply isColorChannelValid_finite.
Qed.

(** At the color (0.25, -0, 1). *)
Lemma Color_Validate_channels_finite_witness :
  is_finite 0.25 = true /\ is_finite (-0) = true /\ is_finite 1 = true.
Proof.
  apply (Color_Validate_channels_finite (mkColor 0.25 (-0) 1)). reflexivity.
Defined.

(** ** Rays and the objects of the scene *)

Section Rays.

Lemma rayHitsObject_loop_app (os1 os2 : list raytracer.Sphere) (ray : Line float) :
  rayHitsObject_loop (os1 ++ os2) ray
  = rayHitsObject_loop os1 ray || rayHitsObject_loop os2 ray.
Proof.
  induction os1 as [|o os1 IH]; simpl; [done|].
  destruct (SphereLineIntersection (Sphere_ o) ray) as [[p t] ok].
  by destruct ok.
Qed.

Lemma rayHitsObject_loop_missed (os : list raytracer.Sphere) (ray : Line float) :
  all_missed os ray -> rayHitsObject_loop os ray = false.
Proof.
  induction 1 as [|o os Ho _ IH]; simpl; [done|].
  destruct (SphereLineIntersection (Sphere_ o) ray) as [[p t] ok].
  cbn [snd] in Ho. by subst ok.
Qed.

Lemma castRay_loop_app (ray : Line float) (os1 os2 : list raytracer.Sphere) :
  forall (i : Z) (st : Point float * float * Z),
    castRay_loop ray (os1 ++ os2) i st
    = castRay_loop ray os2 (i + Z.of_nat (length os1)) (castRay_loop ray os1 i st).
Proof.
  induction os1 as [|o os1 IH]; intros i st; cbn [app castRay_loop length].
  - f_equal. lia.
  - destruct st as [[pmin tmin] imin].
    destruct (SphereLineIntersection (Sphere_ o) ray) as [[p t] ok].
    rewrite IH. f_equal. lia.
Qed.

Lemma castRay_loop_missed (ray : Line float) (os : list raytracer.Sphere) :
  all_missed os ray ->
  forall (i : Z) (st : Point float * float * Z), castRay_loop ray os i st = st.
Proof.
  induction 1 as [|o os Ho _ IH]; intros i st; cbn [castRay_loop]; [done|].
  destruct st as [[pmin tmin] imin].
  destruct (SphereLineIntersection (Sphere_ o) ray) as [[p t] ok].
  cbn [snd] in Ho. subst ok. apply IH.
Qed.

(** An object returned by [castRay] is met at a parameter that is a
    number. *)
Lemma castRay_not_nan (s : Scene) (ray : Line float) (i : nat) (p : Point float) :
  castRay s ray = (Some i, p) ->
  exists o t, Objects s !! i = Some o /\ intersects ray o p t /\
              is_nan t = false.
Proof.
  intros Hc. pose proof (castRay_cases ray s) as H. rewrite Hc in H.
  destruct H as (o & t & Hi & Hint & Hlt & _). exists o, t.
  repeat split; [done..|].
  destruct (is_nan t) eqn:Hn; [|done].
  apply is_nan_eq in Hn. subst t. vm_compute in Hlt. done.
Qed.

(** A ray with a NaN coordinate: no nearest object, and a hit as soon as
    there is an object. *)
Lemma castRay_nan_ray (s : Scene) (ray : Line float) :
  point_has_nan (L0 ray) || point_has_nan (L1 ray) = true ->
  (castRay s ray).1 = None /\
  rayHitsObject s ray = match Objects s with [] => false | _ => true end.
Proof.
  intros Hr. split.
  - destruct (castRay s ray) as [[i|] p] eqn:Hc; [|done].
    apply castRay_not_nan in Hc as (o & t & _ & Hint & Hn).
    unfold intersects in Hint.
    rewrite (ray_has_nan_intersection _ _ Hr) in Hint.
    by injection Hint as <- <-.
  - unfold rayHitsObject. destruct (Objects s) as [|o os]; [done|].
    cbn [rayHitsObject_loop]. by rewrite (ray_has_nan_intersection _ _ Hr).
Qed.

End Rays.

(** [rayHitsObject] depends on which objects the scene holds and not on
    their order, and an object more can only turn a miss into a hit: it
    answers the same for two scenes whose objects are a permutation of
    one another, and a hit in a scene is a hit in every scene that holds
    its objects.  (The light, the colors and the frustum play no part.) *)
Theorem rayHitsObject_any_order (s s' : Scene) (ray : Line float) :
  (Objects s ≡ₚ Objects s' -> rayHitsObject s ray = rayHitsObject s' ray) /\
  ((forall o, o ∈ Objects s -> o ∈ Objects s') ->
   rayHitsObject s ray = true -> rayHitsObject s' ray = true).
Proof.
  unfold rayHitsObject. split.
  - intros Hp. apply eq_true_iff_eq. rewrite !rayHitsObject_loop_true.
    by setoid_rewrite Hp.
  - intros Hsub. rewrite !rayHitsObject_loop_true.
    intros (o & p & t & Ho & Hint). exists o, p, t. split; [by apply Hsub|done].
Qed.

(** Objects appended to the scene that the ray misses change neither the
    object and point that [castRay] returns nor the answer of
    [rayHitsObject]. *)
Theorem castRay_ignores_missed_objects
  (s s' : Scene) (more : list raytracer.Sphere) (ray : Line float) :
  Objects s' = Objects s ++ more -> all_missed more ray ->
  castRay s' ray = castRay s ray /\
  rayHitsObject s' ray = rayHitsObject s ray.
Proof.
  intros Hobjs Hmiss. split.
  - unfold castRay. rewrite Hobjs, castRay_loop_app.
    by rewrite (castRay_loop_missed ray more Hmiss).
  - unfold rayHitsObject. rewrite Hobjs, rayHitsObject_loop_app.
    by rewrite (rayHitsObject_loop_missed more ray Hmiss), orb_false_r.
Qed.

(** At [scene_two_spheres], which is [scene_one_sphere] and a sphere that
    the ray along the z axis misses. *)
Lemma castRay_ignores_missed_objects_witness :
  castRay inputs.scene_two_spheres (inputs.line 0 0 0 0 0 10)
  = castRay inputs.scene_one_sphere (inputs.line 0 0 0 0 0 10) /\
  rayHitsObject inputs.scene_two_spheres (inputs.line 0 0 0 0 0 10)
  = rayHitsObject inputs.scene_one_sphere (inputs.line 0 0 0 0 0 10).
Proof.
  apply (castRay_ignores_missed_objects inputs.scene_one_sphere
           inputs.scene_two_spheres [inputs.ball 2.5 0 0 1 0 1 0]).
  - reflexivity.
  - constructor; [reflexivity|constructor].
Defined.

(** An object whose radius or center has a NaN passes for met by every
    ray, so that [rayHitsObject] is true for every ray of a scene that
    holds one, and is never the object that [castRay] returns: it is not
    drawn, and every pixel that is not an object is in its shadow. *)
Theorem nan_object_shadows_unseen (s : Scene) (o : raytracer.Sphere) :
  o ∈ Objects s -> sphere_has_nan (Sphere_ o) = true ->
  forall ray : Line float,
    rayHitsObject s ray = true /\
    (forall i p, castRay s ray = (Some i, p) ->
                 sphere_has_nan (Sphere_ (deref s i)) = false).
Proof.
  intros Ho Hr ray. split.
  - apply rayHitsObject_loop_true. exists o, nan_point, nan. split; [done|].
    by apply sphere_has_nan_intersection.
  - intros i p (o' & t & Hi & Hint & Hn)%castRay_not_nan.
    unfold deref. rewrite (list_lookup_total_correct _ _ _ Hi).
    destruct (sphere_has_nan (Sphere_ o')) eqn:Hr'; [|done].
    unfold intersects in Hint.
    rewrite (sphere_has_nan_intersection _ _ Hr') in Hint.
    by injection Hint as <- <-.
Qed.

(** In [scene_nan_radius] a ray that leaves the scene backwards hits. *)
Lemma nan_object_shadows_unseen_witness :
  rayHitsObject inputs.scene_nan_radius (inputs.line 0 0 0 0 0 (-1)) = true.
Proof.
  refine (proj1 (nan_object_shadows_unseen inputs.scene_nan_radius
                   (inputs.ball 7 5 0 nan 0 1 0) _ _
                   (inputs.line 0 0 0 0 0 (-1)))).
  - right. left.
  - reflexivity.
Defined.

(** ** Shading at the edges *)

Section Shading.

Lemma diffuseShading_zon (factor kd channel : float) :
  zon factor -> zon (diffuseShading factor kd channel).
Proof.
  intros Hf. unfold diffuseShading. cbn [fsub fadd fmul float64].
  apply float_add_zon; [apply float_mul_zon_l|]; by apply float_mul_zon_l.
Qed.

Lemma diffuseShading_nan (kd channel : float) :
  diffuseShading nan kd channel = nan.
Proof.
  unfold diffuseShading. cbn [fsub fadd fmul float64].
  by autorewrite with nan.
Qed.

Lemma uint8_zon (x : float) : zon x -> uint8_of_float64 (x * 255)%float = 0.
Proof.
  intros Hx. unfold uint8_of_float64.
  by rewrite trunc_zon by by apply float_mul_zon_l.
Qed.

Lemma DotProduct_nan_l (v : Vector float) : DotProduct nan_vector v = nan.
Proof.
  unfold DotProduct, nan_vector. cbn [fsub fadd fmul float64 VX VY VZ].
  by autorewrite with nan.
Qed.

Lemma DotProduct_nan_r (v : Vector float) : DotProduct v nan_vector = nan.
Proof.
  unfold DotProduct, nan_vector. cbn [fsub fadd fmul float64 VX VY VZ].
  by autorewrite with nan.
Qed.

Lemma computeObjectColorAt_nan_dot (s : Scene) (obj : raytracer.Sphere) p :
  DotProduct (UnitVector (MakeVector (Light s) p))
             (NormalVectorAt (Sphere_ obj) p) = nan ->
  computeObjectColorAt s obj p = nan_color.
Proof.
  intros Hdot. unfold computeObjectColorAt. rewrite Hdot.
  cbn [fltb float64 of_int]. change (float64_of_int 0) with 0%float.
  rewrite float_ltb_nan_l. by rewrite !diffuseShading_nan.
Qed.

Lemma computeObjectColorAt_nan_light (s : Scene) (obj : raytracer.Sphere) p :
  point_has_nan (Light s) = true ->
  computeObjectColorAt s obj p = nan_color.
Proof.
  intros Hl. apply computeObjectColorAt_nan_dot.
  rewrite (UnitVector_nan_component (MakeVector (Light s) p)).
  - apply DotProduct_nan_l.
  - unfold MakeVector. cbn [VX VY VZ fsub float64].
    apply point_has_nan_coord in Hl as [-> | [-> | ->]];
      rewrite float_sub_nan_l; by rewrite ?orb_true_r.
Qed.

End Shading.

(** When the light is behind the surface (the product of the unit vector
    to the light with the normal is negative) the factor is 0 and it
    multiplies the ambient term as well as the diffuse one: every channel
    of the color is a zero or NaN, whatever the color of the object and
    the diffuse coefficient, and the pixel is black and opaque. *)
Theorem computeObjectColorAt_back_facing
  (s : Scene) (obj : raytracer.Sphere) (p : Point float) :
  (DotProduct (UnitVector (MakeVector (Light s) p))
              (NormalVectorAt (Sphere_ obj) p) <? 0)%float = true ->
  let c := computeObjectColorAt s obj p in
  (is_zero (CR c) || is_nan (CR c) = true) /\
  (is_zero (CG c) || is_nan (CG c) = true) /\
  (is_zero (CB c) || is_nan (CB c) = true) /\
  toRGBA c = mkRGBA 0 0 0 255.
Proof.
  intros Hdot c. subst c. unfold computeObjectColorAt, toRGBA.
  cbn [fltb float64 of_int CR CG CB fmul].
  change (float64_of_int 0) with 0%float.
  change (float64_of_int 255) with 255%float.
  rewrite Hdot. rewrite !zero_or_nan_spec.
  pose proof (fun c => diffuseShading_zon 0%float (Kd s) c zon_zero) as Hz.
  repeat split; [apply Hz..|].
  by rewrite !uint8_zon by apply Hz.
Qed.

(** At the far side of the red sphere of [scene_two_spheres], the point
    (0, 0, 6). *)
Lemma computeObjectColorAt_back_facing_witness :
  toRGBA (computeObjectColorAt inputs.scene_two_spheres
            (inputs.ball 0 0 5 1 1 0 0) (inputs.point 0 0 6))
  = mkRGBA 0 0 0 255.
Proof.
  refine (proj2 (proj2 (proj2 (computeObjectColorAt_back_facing
            inputs.scene_two_spheres (inputs.ball 0 0 5 1 1 0 0)
            (inputs.point 0 0 6) _)))).
  reflexivity.
Defined.

(** At the light itself, or at the center of the object (where a sphere
    of radius 0 is hit), for finite coordinates: one of the two unit
    vectors is a vector of length zero divided by its length, the factor
    is NaN, the three channels are NaN and the pixel is black. *)
Theorem computeObjectColorAt_at_light_or_center
  (s : Scene) (obj : raytracer.Sphere) (p : Point float) :
  finite_point p = true ->
  p = Light s \/ p = Center (Sphere_ obj) ->
  computeObjectColorAt s obj p = nan_color /\
  toRGBA (computeObjectColorAt s obj p) = mkRGBA 0 0 0 255.
Proof.
  intros Hfin Hp.
  assert (Hc : computeObjectColorAt s obj p = nan_color).
  { apply computeObjectColorAt_nan_dot.
    apply finite_point_coords in Hfin as (Hx & Hy & Hz).
    destruct Hp as [<- | Hp].
    - unfold MakeVector. cbn [fsub float64]. rewrite !float_sub_diag by done.
      rewrite (UnitVector_zon (mkVector 0%float 0%float 0%float)) by done.
      apply DotProduct_nan_l.
    - unfold NormalVectorAt, MakeVector at 2. rewrite <- Hp.
      cbn [fsub float64]. rewrite !float_sub_diag by done.
      rewrite (UnitVector_zon (mkVector 0%float 0%float 0%float)) by done.
      apply DotProduct_nan_r. }
  split; [done|]. rewrite Hc. reflexivity.
Qed.

(** At the light of [scene_two_spheres]. *)
Lemma computeObjectColorAt_at_light_or_center_witness :
  computeObjectColorAt inputs.scene_two_spheres (inputs.ball 0 0 5 1 1 0 0)
    (inputs.point 5 0 (-5)) = nan_color.
Proof.
  refine (proj1 (computeObjectColorAt_at_light_or_center
            inputs.scene_two_spheres (inputs.ball 0 0 5 1 1 0 0)
            (inputs.point 5 0 (-5)) _ _)).
  - reflexivity.
  - left. reflexivity.
Defined.

(** The light is not validated.  With a NaN among its coordinates every
    pixel in which an object is seen is black (the shadow ray finds no
    nearest object and the color computed is NaN), and every other pixel
    is half the background as soon as the scene holds an object (the ray
    to the light passes for a hit), the background itself otherwise. *)
Theorem renderPixel_nan_light (s : Scene) (x y : float) :
  point_has_nan (Light s) = true ->
  renderPixel s x y
  = match (castRay s (primaryRay s x y)).1 with
    | Some _ => mkRGBA 0 0 0 255
    | None =>
        toRGBA match Objects s with
               | [] => Bg s
               | _ => mkColor (CR (Bg s) / 2) (CG (Bg s) / 2) (CB (Bg s) / 2)
               end
    end.
Proof.
  intros Hl. unfold renderPixel, pixelColor.
  destruct (castRay s (primaryRay s x y)) as [[obj|] p]; cbn [fst].
  - destruct (castRay_nan_ray s (mkLine (Light s) p)) as [Hnone _].
    { cbn [L0]. by rewrite Hl. }
    destruct (castRay s (mkLine (Light s) p)) as [other q].
    cbn [fst] in Hnone. subst other.
    by rewrite computeObjectColorAt_nan_light.
  - destruct (castRay_nan_ray s (mkLine (farPoint s x y) (Light s))) as [_ Hhit].
    { cbn [L1]. by rewrite Hl, orb_true_r. }
    rewrite Hhit. by destruct (Objects s).
Qed.

(** In [scene_nan_light]: the pixel at the sphere and a pixel beside
    it. *)
Lemma renderPixel_nan_light_witness :
  renderPixel inputs.scene_nan_light 0 0 = mkRGBA 0 0 0 255 /\
  renderPixel inputs.scene_nan_light 3 3 = mkRGBA 31 63 95 255.
Proof.
  split.
  - exact (renderPixel_nan_light inputs.scene_nan_light 0 0 eq_refl).
  - exact (renderPixel_nan_light inputs.scene_nan_light 3 3 eq_refl).
Defined.

(** ** More on the image of [Render] *)

Section RenderMore.
Variable s : Scene.

Lemma Render_inr (nstripes : Z) (img : Image) :
  Render s nstripes = inr img ->
  Validate s = None /\
  img = run (concat (stripes s (width s) (height s) (clamp nstripes))) (blank s).
Proof.
  unfold Render. destruct (Validate s); [done|]. by intros [= <-].
Qed.

Lemma Render_pixels (nstripes : Z) (img : Image) (x y : Z) :
  Render s nstripes = inr img ->
  RGBAAt img x y
  = if covered s nstripes x y then pixel s x y else mkRGBA 0 0 0 0.
Proof.
  intros [_ ->]%Render_inr.
  by rewrite (rendered_pixels s (clamp nstripes)) by (apply clamp_ge_1 || done).
Qed.

Lemma quot_divide (h n : Z) : 1 <= n -> (n | h) -> n * Z.quot h n = h.
Proof.
  intros Hn Hdiv. apply Z.rem_divide in Hdiv; [|lia].
  pose proof (Z.quot_rem' h n). lia.
Qed.

End RenderMore.

(** The number of stripes changes nothing in the image when it divides
    the height: [Render] gives the same result, bytes and error alike,
    for every two numbers of stripes that divide the height of the image,
    and a number below 1 counts as 1. *)
Theorem Render_stripe_count_irrelevant (s : Scene) :
  (forall n, n <= 1 -> Render s n = Render s 1) /\
  (forall n m, 1 <= n -> 1 <= m -> (n | height s) -> (m | height s) ->
               Render s n = Render s m).
Proof.
  split.
  - intros n Hn. unfold Render, clamp.
    destruct (Z.ltb_spec n 1); [done|]. by replace n with 1 by lia.
  - intros n m Hn Hm Hdn Hdm. apply Render_covering_stripes; [done..|].
    by rewrite !quot_divide.
Qed.

(** With more stripes than the image has rows the slice is 0 rows and
    every goroutine writes nothing: [Render] returns the image as
    [image.NewRGBA] made it, all zero, and no error. *)
Theorem Render_more_stripes_than_rows (s : Scene) (nstripes : Z) :
  Validate s = None -> Z.abs (height s) < nstripes ->
  Render s nstripes = inr (blank s).
Proof.
  intros Hv Hh. unfold Render. rewrite Hv, clamp_id by lia. f_equal.
  assert (Hq : Z.quot (height s) nstripes = 0) by (apply Z.quot_small_iff; lia).
  apply image_ext.
  - apply run_well_formed, blank_well_formed.
  - apply blank_well_formed.
  - by rewrite run_Bounds.
  - intros x y. rewrite (rendered_pixels s nstripes) by (lia || done).
    rewrite Hq, Z.mul_0_r.
    unfold blank. rewrite RGBAAt_NewRGBA.
    destruct (Z.leb_spec 0 y), (Z.ltb_spec y 0); try lia;
      by rewrite ?andb_false_r.
Qed.

(** [scene_six_rows] in seven stripes. *)
Lemma Render_more_stripes_than_rows_witness :
  Render inputs.scene_six_rows 7 = inr (blank inputs.scene_six_rows).
Proof.
  apply (Render_more_stripes_than_rows inputs.scene_six_rows 7).
  - reflexivity.
  - reflexivity.
Defined.

(** The image [Render] returns for a scene without NaN in its radii, its
    diffuse coefficient and its plane corners: its width and height, the
    integer parts of [Dx] and [Dy] of the near plane, are not negative;
    its bounds are (0, 0)-(width, height); it holds four bytes per pixel,
    row after row; and the alpha of a pixel is 255 where a stripe has
    written it and 0 elsewhere. *)
Theorem Render_image_shape (s : Scene) (nstripes : Z) (img : Image) :
  nan_free s = true -> Render s nstripes = inr img ->
  0 <= width s /\ 0 <= height s /\
  Bounds img = mkRectangle 0 0 (width s) (height s) /\
  Stride img = 4 * width s /\
  Z.of_nat (length (Pix img)) = 4 * width s * height s /\
  forall x y,
    A8 (RGBAAt img x y) = if covered s nstripes x y then 255 else 0.
Proof.
  intros Hnan Hr. pose proof (Render_pixels s nstripes img) as Hpix.
  apply Render_inr in Hr as Himg. destruct Himg as [Hv Himg].
  destruct (valid_size s Hnan Hv) as [Hw Hh].
  assert (Hwf : well_formed img).
  { rewrite Himg. apply run_well_formed, blank_well_formed. }
  assert (Hb : Bounds img = mkRectangle 0 0 (width s) (height s)).
  { rewrite Himg, run_Bounds. unfold blank, NewRGBA, Rect. cbn [Bounds].
    destruct (Z.ltb_spec (width s) 0); [lia|].
    destruct (Z.ltb_spec (height s) 0); [lia|]. done. }
  destruct Hwf as (_ & _ & Hs & Hl). rewrite Hb in Hs, Hl. cbn in Hs, Hl.
  repeat split; [done|done|done|lia|lia|].
  intros x y. rewrite Hpix by done. by destruct (covered s nstripes x y).
Qed.

(** [scene_six_rows] in four stripes: 2 by 6 pixels, the row 3 written
    and the row 4 not. *)
Lemma Render_image_shape_witness :
  exists img, Render inputs.scene_six_rows 4 = inr img /\
              Bounds img = mkRectangle 0 0 2 6 /\
              A8 (RGBAAt img 0 3) = 255 /\ A8 (RGBAAt img 0 4) = 0.
Proof.
  eexists. split; [reflexivity|].
  destruct (Render_image_shape inputs.scene_six_rows 4 _ eq_refl eq_refl)
    as (_ & _ & Hb & _ & _ & Ha).
  split; [exact Hb|]. split; [exact (Ha 0 3)|exact (Ha 0 4)].
Defined.

(** A scene without objects is the background: every pixel that a
    stripe writes holds the background color converted by [toRGBA]. *)
Theorem Render_empty_scene (s : Scene) (nstripes : Z) (img : Image) :
  Objects s = [] -> Render s nstripes = inr img ->
  forall x y,
    RGBAAt img x y
    = if covered s nstripes x y then toRGBA (Bg s) else mkRGBA 0 0 0 0.
Proof.
  intros Hobjs Hr x y. rewrite (Render_pixels s nstripes img) by done.
  destruct (covered s nstripes x y); [|done].
  unfold pixel, renderPixel, pixelColor, castRay, rayHitsObject.
  by rewrite Hobjs.
Qed.

(** [scene_empty] in one stripe, the pixel (1, 5). *)
Lemma Render_empty_scene_witness :
  exists img, Render inputs.scene_empty 1 = inr img /\
              RGBAAt img 1 5 = mkRGBA 63 127 191 255.
Proof.
  eexists. split; [reflexivity|].
  exact (Render_empty_scene inputs.scene_empty 1 _ eq_refl eq_refl 1 5).
Defined.

(** ** The tests of package geom *)

